(** * GitPython: diff header parsing and tag references

    A shallow embedding of [lib/git/diff.py] (the loop that turns the text
    of [git diff] into [Diff] records) and of [git/refs/tag.py]
    ([TagReference]: [commit], [tag], [object], [create], [delete]),
    followed by the properties that the specification states about them.

    Python strings are 8-bit strings ([string]); [None] is [option]'s
    [None]; a raised exception is the [Raise] case of [result]. *)

From Stdlib Require Import String Ascii List Lia Bool Arith ZArith.
From stdpp Require Import gmap strings list fin_maps.
Open Scope list_scope.
Open Scope stdpp_scope.

#[local] Arguments String.append !s1 s2 : simpl nomatch.

(** ** Python values shared by both modules *)

(** The exceptions the two source files can raise. *)
Inductive exn :=
| ValueError (msg : string)
| AttributeError (msg : string)
| GitCommandError (status : Z)
| BadObject (ref : string).

Inductive result (A : Type) :=
| Return (a : A)
| Raise (e : exn).
Arguments Return {A} a.
Arguments Raise {A} e.

#[global] Instance result_ret : MRet result := fun _ a => Return a.
#[global] Instance result_bind : MBind result := fun _ _ f x =>
  match x with
  | Return a => f a
  | Raise e => Raise e
  end.

(** The line feed, written [\n] in the Python sources. *)
Definition LF : ascii := ascii_of_nat 10.
Definition nl : string := String LF "".

(** [bool(x)] for [x] a string or [None]. *)
Definition truthy (x : option string) : bool :=
  match x with
  | Some (String _ _) => true
  | _ => false
  end.

(** [x or y] *)
Definition py_or (x y : option string) : option string :=
  if truthy x then x else y.

(** [s[n:]] *)
Fixpoint drop_str (n : nat) (s : string) : string :=
  match n, s with
  | O, _ => s
  | S n', String _ s' => drop_str n' s'
  | S _, EmptyString => EmptyString
  end.

(** [s.split(sep)] for a non-empty [sep]: the subject is scanned from the
    left; where [sep] starts, the piece read so far is closed and the scan
    resumes behind the separator ([skip] counts the characters of it still
    to pass over), so occurrences are taken without overlap. *)
Fixpoint split_from (sep s : string) (skip : nat) (cur : string) : list string :=
  match s with
  | EmptyString => [cur]
  | String c s' =>
      match skip with
      | S n => split_from sep s' n cur
      | O =>
          if String.prefix sep s
          then cur :: split_from sep s' (String.length sep - 1) ""
          else split_from sep s' 0 (cur +:+ String c "")
      end
  end.

Definition split (sep s : string) : list string := split_from sep s 0 "".

(** ** The regular expressions of Python's [re], as far as [diff_header] uses them *)

Module Re.

(** Every quantified item of the pattern is a character class, so [+] is
    kept on classes; [?] applies to arbitrary sub-patterns. *)
Inductive regex :=
| Lit (s : string)               (* literal text *)
| Cls (p : ascii -> bool)        (* one character of a class *)
| Plus (p : ascii -> bool)       (* class+, greedy *)
| Bol                            (* ^ under re.MULTILINE *)
| Eol                            (* $ under re.MULTILINE *)
| Seq (r1 r2 : regex)
| Alt (r1 r2 : regex)            (* r1|r2 *)
| Opt (r : regex)                (* r?, greedy *)
| Grp (name : string) (r : regex). (* (?P<name>r) *)

(** The matcher's position in the subject: the offset, the character
    before it, the text from it on, and the groups captured so far. *)
Record mstate := MState {
  pos : nat;
  prev : option ascii;
  rest : string;
  caps : gmap string string
}.

Definition advance (c : ascii) (s : string) (st : mstate) : mstate :=
  MState (S (pos st)) (Some c) s (caps st).

Definition set_group (g v : string) (st : mstate) : mstate :=
  MState (pos st) (prev st) (rest st) (<[g := v]> (caps st)).

(** [^] with [re.MULTILINE]: start of the subject or just after a line feed. *)
Definition at_bol (st : mstate) : bool :=
  match prev st with
  | None => true
  | Some c => Ascii.eqb c LF
  end.

(** [$] with [re.MULTILINE]: end of the subject or just before a line feed. *)
Definition at_eol (st : mstate) : bool :=
  match rest st with
  | EmptyString => true
  | String c _ => Ascii.eqb c LF
  end.

Fixpoint lit (s : string) (st : mstate) : option mstate :=
  match s with
  | EmptyString => Some st
  | String c s' =>
      match rest st with
      | String d r => if Ascii.eqb c d then lit s' (advance d r st) else None
      | EmptyString => None
      end
  end.

(** Greedy repetition: take as many characters as the class allows, then
    give them back one at a time until the continuation succeeds. *)
Fixpoint star (p : ascii -> bool) (s : string) (n : nat) (pv : option ascii)
         (cs : gmap string string) (k : mstate -> option mstate) : option mstate :=
  match s with
  | String c s' =>
      if p c then
        match star p s' (S n) (Some c) cs k with
        | Some r => Some r
        | None => k (MState n pv s cs)
        end
      else k (MState n pv s cs)
  | EmptyString => k (MState n pv s cs)
  end.

Definition plus (p : ascii -> bool) (st : mstate) (k : mstate -> option mstate)
  : option mstate :=
  match rest st with
  | String c s' => if p c then star p s' (S (pos st)) (Some c) (caps st) k else None
  | EmptyString => None
  end.

(** Backtracking search in the order of [re]: the first alternative, the
    longest repetition and the present option are tried first. *)
Fixpoint run (r : regex) (st : mstate) (k : mstate -> option mstate) : option mstate :=
  match r with
  | Lit s => match lit s st with Some st' => k st' | None => None end
  | Cls p =>
      match rest st with
      | String c s' => if p c then k (advance c s' st) else None
      | EmptyString => None
      end
  | Plus p => plus p st k
  | Bol => if at_bol st then k st else None
  | Eol => if at_eol st then k st else None
  | Seq r1 r2 => run r1 st (fun st' => run r2 st' k)
  | Alt r1 r2 =>
      match run r1 st k with
      | Some x => Some x
      | None => run r2 st k
      end
  | Opt r' =>
      match run r' st k with
      | Some x => Some x
      | None => k st
      end
  | Grp g r' =>
      run r' st (fun st' =>
        k (set_group g (substring 0 (pos st' - pos st) (rest st)) st'))
  end.

(** [re.compile(r).match(s)]: anchored at offset 0. *)
Definition match_ (r : regex) (s : string) : option mstate :=
  run r (MState 0 None s ∅) Some.

(** [m.end()] *)
Definition end_ (m : mstate) : nat := pos m.

(** [m.group(name)], [None] for a group that took no part in the match. *)
Definition group (m : mstate) (g : string) : option string := caps m !! g.

(** The groups of a pattern in the order of their opening parentheses. *)
Fixpoint group_names (r : regex) : list string :=
  match r with
  | Seq r1 r2 | Alt r1 r2 => group_names r1 ++ group_names r2
  | Opt r' => group_names r'
  | Grp g r' => g :: group_names r'
  | _ => []
  end.

(** [m.groups()] *)
Definition groups (r : regex) (m : mstate) : list (option string) :=
  map (group m) (group_names r).

(** A pattern that takes at least one character whenever it matches. *)
Fixpoint consumes (r : regex) : bool :=
  match r with
  | Lit (String _ _) | Cls _ | Plus _ => true
  | Lit EmptyString | Bol | Eol | Opt _ => false
  | Seq r1 r2 => consumes r1 || consumes r2
  | Alt r1 r2 => consumes r1 && consumes r2
  | Grp _ r' => consumes r'
  end.

(** Every group of the pattern encloses such a pattern. *)
Fixpoint groups_consume (r : regex) : bool :=
  match r with
  | Seq r1 r2 | Alt r1 r2 => groups_consume r1 && groups_consume r2
  | Opt r' => groups_consume r'
  | Grp _ r' => consumes r' && groups_consume r'
  | _ => true
  end.

(** No captured group is the empty string. *)
Definition captures_nonempty (st : mstate) : Prop :=
  map_Forall (fun _ v => v <> "") (caps st).

(** Character classes. *)
Definition code_in (lo hi : nat) (c : ascii) : bool :=
  Nat.leb lo (nat_of_ascii c) && Nat.leb (nat_of_ascii c) hi.

(** [\s] on 8-bit strings is [ \t\n\r\f\v]; [\S] is its complement. *)
Definition is_space (c : ascii) : bool := code_in 9 13 c || Ascii.eqb c " ".
Definition non_space (c : ascii) : bool := negb (is_space c).
Definition digit (c : ascii) : bool := code_in 48 57 c.
(** [[0-9A-Fa-f]] *)
Definition hexdigit (c : ascii) : bool :=
  code_in 48 57 c || code_in 65 70 c || code_in 97 102 c.
(** [.] without re.DOTALL *)
Definition dot (c : ascii) : bool := negb (Ascii.eqb c LF).
Definition only (a : ascii) (c : ascii) : bool := Ascii.eqb c a.

End Re.

Import Re.

Declare Scope re_scope.
Delimit Scope re_scope with re.
Bind Scope re_scope with regex.
Infix ";;;" := Seq (at level 62, right associativity) : re_scope.

(** ** lib/git/diff.py *)

Module DiffPy.

(** [[ ]] and [\n] of the pattern. *)
Definition sp : regex := Cls (only " ").
Definition newline : regex := Cls (only LF).
(** [(?:\n|$)] *)
Definition eol : regex := Alt newline Eol.

(** The first line of the pattern; the [#^diff[ ]--git] before it is a
    comment under re.VERBOSE. *)
Definition path_pair_line : regex :=
  (sp ;;; Lit "a/" ;;; Grp "a_path" (Plus non_space) ;;;
   sp ;;; Lit "b/" ;;; Grp "b_path" (Plus non_space) ;;; newline)%re.

Definition rename_block : regex :=
  Opt (Bol ;;; Lit "similarity" ;;; sp ;;; Lit "index" ;;; sp ;;;
         Grp "similarity_index" (Plus digit) ;;; Lit "%" ;;; newline ;;;
       Bol ;;; Lit "rename" ;;; sp ;;; Lit "from" ;;; sp ;;;
         Grp "rename_from" (Plus non_space) ;;; newline ;;;
       Bol ;;; Lit "rename" ;;; sp ;;; Lit "to" ;;; sp ;;;
         Grp "rename_to" (Plus non_space) ;;; eol)%re.

Definition mode_block : regex :=
  Opt (Bol ;;; Lit "old" ;;; sp ;;; Lit "mode" ;;; sp ;;;
         Grp "old_mode" (Plus digit) ;;; newline ;;;
       Bol ;;; Lit "new" ;;; sp ;;; Lit "mode" ;;; sp ;;;
         Grp "new_mode" (Plus digit) ;;; eol)%re.

Definition new_file_line : regex :=
  Opt (Bol ;;; Lit "new" ;;; sp ;;; Lit "file" ;;; sp ;;; Lit "mode" ;;; sp ;;;
         Grp "new_file_mode" (Plus dot) ;;; eol)%re.

Definition deleted_file_line : regex :=
  Opt (Bol ;;; Lit "deleted" ;;; sp ;;; Lit "file" ;;; sp ;;; Lit "mode" ;;; sp ;;;
         Grp "deleted_file_mode" (Plus dot) ;;; eol)%re.

Definition index_line : regex :=
  Opt (Bol ;;; Lit "index" ;;; sp ;;; Grp "a_commit" (Plus hexdigit) ;;;
         Lit ".." ;;; Grp "b_commit" (Plus hexdigit) ;;; Opt sp ;;;
         Opt (Grp "b_mode" (Plus dot)) ;;; eol)%re.

Definition optional_lines : regex :=
  (rename_block ;;; mode_block ;;; new_file_line ;;; deleted_file_line ;;;
   index_line)%re.

Definition diff_header_re : regex := (path_pair_line ;;; optional_lines)%re.

(** [diff_header = re.compile(..., re.VERBOSE | re.MULTILINE).match] *)
Definition diff_header (diff : string) : option mstate :=
  match_ diff_header_re diff.

(** The arguments [Diff(repo, ...)] is built from, [repo] apart. *)
Record Diff := mkDiff {
  a_path : option string;
  b_path : option string;
  a_commit : option string;
  b_commit : option string;
  a_mode : option string;
  b_mode : option string;
  new_file : bool;
  deleted_file : bool;
  diff : string
}.

Definition no_groups : string := "'NoneType' object has no attribute 'groups'".

(** The body of the [for] loop: one segment to one [Diff], or the
    exception of [header.groups()] when [diff_header] returned [None]. *)
Definition loop_body (diff : string) : result Diff :=
  match diff_header diff with
  | None => Raise (AttributeError no_groups)
  | Some header =>
      match groups diff_header_re header with
      | [a_path; b_path; similarity_index; rename_from; rename_to;
         old_mode; new_mode; new_file_mode; deleted_file_mode;
         a_commit; b_commit; b_mode] =>
          let new_file := truthy new_file_mode in
          let deleted_file := truthy deleted_file_mode in
          Return (mkDiff a_path b_path a_commit b_commit
                    (py_or old_mode deleted_file_mode)
                    (py_or (py_or new_mode new_file_mode) b_mode)
                    new_file deleted_file (drop_str (end_ header) diff))
      | _ => Raise (ValueError "wrong number of values to unpack")
      end
  end.

(** [for diff in ...: ... diffs.append(Diff(...))] *)
Fixpoint loop (diffs : list Diff) (segments : list string) : result (list Diff) :=
  match segments with
  | [] => Return diffs
  | diff :: more => d ← loop_body diff; loop (diffs ++ [d]) more
  end.

Definition marker : string := "diff --git".
Definition separator : string := nl +:+ marker.

(** [('\n' + text).split('\ndiff --git')[1:]] *)
Definition segments (text : string) : list string :=
  tail (split separator (nl +:+ text)).

(** The enclosing method: it starts from an empty [diffs] and returns it
    after the loop. *)
Definition list_from_string (text : string) : result (list Diff) :=
  loop [] (segments text).

End DiffPy.

Import DiffPy.

(** ** git/refs/tag.py *)

Module TagPy.

(** An object of the repository as [commit] and [tag] look at it: its
    [type] string, and for a tag object the id of the object it tags
    (what [obj.object] loads). *)
Record Object := mkObject {
  hexsha : string;
  type : string;
  tagged : option string
}.

(** The part of the repository the accessors read: where each reference
    points, and the object database. *)
Record Repo := mkRepo {
  refs : gmap string string;
  odb : gmap string Object
}.

Record TagReference := mkTagReference { path : string }.

(** [_common_path_default] *)
Definition common_path_default : string := "refs/tags".

(** Modelled from the spec: [fetchObject(id) -> TagTarget] of the backend
    (section 6), which the object classes call; they are not among the
    sources. An id the database does not hold is an error. *)
Definition fetch (r : Repo) (id : string) : result Object :=
  match odb r !! id with
  | Some o => Return o
  | None => Raise (BadObject id)
  end.

(** Modelled from the spec: [Reference._get_object], the getter of the
    base class, which is not among the sources: the object the reference
    currently points to, fetched from the backend. *)
Definition Reference_get_object (r : Repo) (self : TagReference) : result Object :=
  match refs r !! path self with
  | Some id => fetch r id
  | None => Raise (BadObject (path self))
  end.

(** [obj.object] of a tag object. *)
Definition Object_object (r : Repo) (obj : Object) : result Object :=
  match tagged obj with
  | Some id => fetch r id
  | None => Raise (AttributeError "object")
  end.

(** Python's [property(fget, fset)]: reading calls [fget]; assigning calls
    [fset], and raises [AttributeError] when there is none. The state an
    assignment could change is the repository. *)
Record property := mkProperty {
  fget : option (Repo -> TagReference -> result Object);
  fset : option (Repo -> TagReference -> Object -> result unit * Repo)
}.

Definition property_get (p : property) (r : Repo) (self : TagReference)
  : result Object :=
  match fget p with
  | Some f => f r self
  | None => Raise (AttributeError "unreadable attribute")
  end.

Definition property_set (p : property) (r : Repo) (self : TagReference)
           (value : Object) : result unit * Repo :=
  match fset p with
  | Some f => f r self value
  | None => (Raise (AttributeError "can't set attribute"), r)
  end.

(** [object = property(Reference._get_object)] *)
Definition object : property := mkProperty (Some Reference_get_object) None.

(** The properties a class body defines, by name. [TagReference] binds
    [object] anew. *)
Definition TagReference_dict : gmap string property := {[ "object" := object ]}.

(** Modelled from the spec: the attribute of the base class [Reference],
    which is not among the sources, is mutable (section 9): its setter
    points the reference at the given object. *)
Definition Reference_set_object (r : Repo) (self : TagReference) (value : Object)
  : result unit * Repo :=
  (Return tt, mkRepo (<[path self := hexsha value]> (refs r)) (odb r)).

Definition Reference_dict : gmap string property :=
  {[ "object" := mkProperty (Some Reference_get_object) (Some Reference_set_object) ]}.

(** Attribute lookup on the type: the first class in the method resolution
    order that binds the name. *)
Fixpoint lookup_mro (mro : list (gmap string property)) (name : string)
  : option property :=
  match mro with
  | [] => None
  | d :: bases =>
      match d !! name with
      | Some p => Some p
      | None => lookup_mro bases name
      end
  end.

Definition TagReference_mro : list (gmap string property) :=
  [TagReference_dict; Reference_dict].
Definition Reference_mro : list (gmap string property) := [Reference_dict].

(** [getattr(self, name)] and [setattr(self, name, value)] for a name the
    classes may bind to a property; with [__slots__ = ()] an instance has
    no attributes of its own. *)
Definition getattr (mro : list (gmap string property)) (r : Repo)
           (self : TagReference) (name : string) : result Object :=
  match lookup_mro mro name with
  | Some p => property_get p r self
  | None => Raise (AttributeError name)
  end.

Definition setattr (mro : list (gmap string property)) (r : Repo)
           (self : TagReference) (name : string) (value : Object)
  : result unit * Repo :=
  match lookup_mro mro name with
  | Some p => property_set p r self value
  | None => (Raise (AttributeError name), r)
  end.

(** [self.object] and [self.object = value] on a [TagReference]. *)
Definition get_object (r : Repo) (self : TagReference) : result Object :=
  getattr TagReference_mro r self "object".
Definition set_object (r : Repo) (self : TagReference) (value : Object)
  : result unit * Repo :=
  setattr TagReference_mro r self "object" value.

Section Printed.

(** [str(self)]: how a reference prints is defined by the base class, which
    is not among the sources, and the specification does not say it; it is
    a parameter of [commit], a function of the reference. *)
Variable str : TagReference -> string.

(** The message of the [ValueError]: the format string of the source with
    [str(self)] and [obj.type] filled in. *)
Definition cannot_resolve (self : TagReference) (kind : string) : string :=
  "Cannot resolve commit as tag " +:+ str self +:+ " points to a " +:+ kind
  +:+ " object - use the `.object` property instead to access it".

(** The [while] loop of [commit]; [None] when it is still running after
    [fuel] iterations. *)
Fixpoint commit_loop (fuel : nat) (r : Repo) (self : TagReference) (obj : Object)
  : option (result Object) :=
  if negb (String.eqb (type obj) "commit") then
    match fuel with
    | O => None
    | S fuel' =>
        if String.eqb (type obj) "tag" then
          match Object_object r obj with
          | Return obj' => commit_loop fuel' r self obj'
          | Raise e => Some (Raise e)
          end
        else Some (Raise (ValueError (cannot_resolve self (type obj))))
    end
  else Some (Return obj).

Definition commit (fuel : nat) (r : Repo) (self : TagReference)
  : option (result Object) :=
  match get_object r self with
  | Return obj => commit_loop fuel r self obj
  | Raise e => Some (Raise e)
  end.

End Printed.

Definition tag (r : Repo) (self : TagReference) : result (option Object) :=
  obj ← get_object r self;
  if String.eqb (type obj) "tag" then Return (Some obj) else Return None.

(** *** The git command line behind [repo.git] *)

(** A keyword argument is [True] or a string. *)
Inductive kwvalue := KTrue | KStr (s : string).

(** One command line: the sub-command of [repo.git], its positional and
    its keyword arguments. *)
Record GitCmd := Git {
  sub : string;
  args : list string;
  kwargs : gmap string kwvalue
}.

(** The external tool: given the commands run so far and the next one, it
    succeeds ([None]) or fails with an exit status, which [repo.git]
    raises as [GitCommandError]. *)
Definition Backend := list GitCmd -> GitCmd -> option Z.

(** One call of [repo.git]; the state is the list of commands run. *)
Definition git (backend : Backend) (cmd : GitCmd) (log : list GitCmd)
  : result unit * list GitCmd :=
  (match backend log cmd with
   | None => Return tt
   | Some status => Raise (GitCommandError status)
   end, log ++ [cmd]).

(** What [create] returns: [False] or the new reference. *)
Inductive created := CFalse | CRef (t : TagReference).

Definition create (backend : Backend) (tag : string) (push : bool) (ref : string)
           (message : option string) (force : bool) (kwargs : gmap string kwvalue)
           (log : list GitCmd) : result created * list GitCmd :=
  let args := [tag; ref] in
  let kwargs := match message with
                | Some m => if truthy message then <["m" := KStr m]> kwargs else kwargs
                | None => kwargs
                end in
  let kwargs := if force then <["f" := KTrue]> kwargs else kwargs in
  match git backend (Git "tag" args kwargs) log with
  | (Raise e, log) => (Raise e, log)
  | (Return _, log) =>
      let new := CRef (mkTagReference (common_path_default +:+ "/" +:+ tag)) in
      if push then
        let kwargs := if truthy message then delete "m" kwargs else kwargs in
        match git backend (Git "push" ["origin"; tag] kwargs) log with
        | (Raise (GitCommandError status), log) =>
            (* if err.status == 1: pass *)
            let _ := Z.eqb status 1 in
            (Return CFalse, log)
        | (Raise e, log) => (Raise e, log)
        | (Return _, log) => (Return new, log)
        end
      else (Return new, log)
  end.

(** [for tag in tags: try: repo.git.push(...) except ...: return False] *)
Fixpoint delete_push (backend : Backend) (kwargs : gmap string kwvalue)
         (tags : list string) (log : list GitCmd)
  : result (option bool) * list GitCmd :=
  match tags with
  | [] => (Return None, log)
  | tag :: more =>
      match git backend (Git "push" ["origin"; tag] kwargs) log with
      | (Raise (GitCommandError status), log) =>
          let _ := Z.eqb status 1 in
          (Return (Some false), log)
      | (Raise e, log) => (Raise e, log)
      | (Return _, log) => delete_push backend kwargs more log
      end
  end.

(** [delete] returns [False] ([Some false]) or nothing ([None]). *)
Definition delete (backend : Backend) (push : bool) (tags : list string)
           (kwargs : gmap string kwvalue) (log : list GitCmd)
  : result (option bool) * list GitCmd :=
  match git backend (Git "tag" ("-d" :: tags) ∅) log with
  | (Raise e, log) => (Raise e, log)
  | (Return _, log) =>
      if push then delete_push backend (<["d" := KTrue]> kwargs) tags log
      else (Return None, log)
  end.

End TagPy.

(** ** Vocabulary of the specification *)

(** How often [sep] occurs in [s], counting every position where it starts. *)
Fixpoint occurrences (sep s : string) : nat :=
  match s with
  | EmptyString => 0
  | String _ t => (if String.prefix sep s then 1 else 0) + occurrences sep t
  end.

(** The number of lines of [text] that begin with the marker [diff --git];
    [bol] tells whether [text] itself starts at the beginning of a line. *)
Fixpoint count_marker_lines (bol : bool) (text : string) : nat :=
  match text with
  | EmptyString => 0
  | String c t =>
      (if bol && String.prefix marker text then 1 else 0)
      + count_marker_lines (Ascii.eqb c LF) t
  end.

Definition marker_lines (text : string) : nat := count_marker_lines true text.

(** [sep.join(pieces)] *)
Fixpoint join (sep : string) (pieces : list string) : string :=
  match pieces with
  | [] => ""
  | [x] => x
  | x :: more => x +:+ sep +:+ join sep more
  end.

(** [modeBefore]: old-mode if present, else deleted-file-mode. *)
Definition mode_before (header : mstate) : option string :=
  match group header "old_mode" with
  | Some m => Some m
  | None => group header "deleted_file_mode"
  end.

(** [modeAfter]: new-mode if present, else new-file-mode, else the mode
    that ends the index line. *)
Definition mode_after (header : mstate) : option string :=
  match group header "new_mode" with
  | Some m => Some m
  | None =>
      match group header "new_file_mode" with
      | Some m => Some m
      | None => group header "b_mode"
      end
  end.

(** Texts of [git diff]: lines joined by line feeds. *)
Definition lines (l : list string) : string := join nl l.

(** The example of the specification, with and without the final line feed. *)
Definition example_lines : list string :=
  [ "diff --git a/src/foo.py b/src/foo.py";
    "old mode 100644";
    "new mode 100755";
    "index abc123..def456 100755" ].
Definition example_text : string := lines example_lines +:+ nl.
Definition example_text' : string := lines example_lines.

Definition example_record (body : string) : Diff :=
  mkDiff (Some "src/foo.py") (Some "src/foo.py") (Some "abc123") (Some "def456")
    (Some "100644") (Some "100755") false false body.

(** The diff of one file [x] with the given header lines behind the path
    pair, and the record of it with the given hashes, modes and flags. *)
Definition file_text (header_lines : list string) : string :=
  lines ("diff --git a/x b/x" :: header_lines) +:+ nl.

Definition file_record (a_commit b_commit a_mode b_mode : option string)
           (new_file deleted_file : bool) : Diff :=
  mkDiff (Some "x") (Some "x") a_commit b_commit a_mode b_mode
    new_file deleted_file "".

(** The example of the specification followed by a hunk. *)
Definition example_hunk : string :=
  lines [ "--- a/src/foo.py"; "+++ b/src/foo.py"; "@@ -1 +1 @@"; "-old"; "+new" ] +:+ nl.
Definition example_with_hunk : string := example_text +:+ example_hunk.

(** A header that carries both a [new file mode] and a [deleted file mode]
    line. *)
Definition new_and_deleted_text : string :=
  lines [ "diff --git a/x b/x";
          "new file mode 100644";
          "deleted file mode 100644";
          "index 0000000..e69de29" ].

(** A segment with a mode change: what follows [diff --git] in the example
    up to the index line. *)
Definition mode_change_segment : string :=
  lines [ " a/src/foo.py b/src/foo.py"; "old mode 100644"; "new mode 100755" ].

(** A path-pair line directly followed by the next [diff --git] line. *)
Definition bare_header_text : string :=
  lines [ "diff --git a/x b/y"; "diff --git a/z b/z"; "index abc123..def456 100644" ].

(** A text whose only segment has no path pair, and one whose second
    segment has none. *)
Definition malformed_first : string := lines [ "diff --git"; "@@ -1 +1 @@" ].
Definition malformed_second : string :=
  lines [ "diff --git a/x b/y"; "index abc123..def456 100644";
          "diff --git"; "@@ -1 +1 @@" ].

(** [reaches r o x]: following the tagged-object links of tag objects from
    [o] leads to [x]. *)
Inductive reaches (r : TagPy.Repo) : TagPy.Object -> TagPy.Object -> Prop :=
| reaches_here o : reaches r o o
| reaches_tag o o' x id :
    TagPy.type o = "tag" ->
    TagPy.tagged o = Some id ->
    TagPy.odb r !! id = Some o' ->
    reaches r o' x ->
    reaches r o x.

(** A tag [v1] on a tag object on a tag object on a commit, and the same
    tag on a tree in two repositories that differ in the tree. *)
Definition v1 : TagPy.TagReference := TagPy.mkTagReference "refs/tags/v1".

(** One way to print a reference, to have an instance of the parameter of
    [commit] in the examples: the path behind [refs/tags/]. *)
Definition short_name (self : TagPy.TagReference) : string :=
  drop_str 10 (TagPy.path self).

Definition the_commit : TagPy.Object := TagPy.mkObject "c0ffee" "commit" None.
Definition inner_tag : TagPy.Object := TagPy.mkObject "7a90" "tag" (Some "c0ffee").
Definition outer_tag : TagPy.Object := TagPy.mkObject "7a91" "tag" (Some "7a90").
Definition chained_repo : TagPy.Repo :=
  TagPy.mkRepo {[ "refs/tags/v1" := "7a91" ]}
    (<["7a91" := outer_tag]> (<["7a90" := inner_tag]> {[ "c0ffee" := the_commit ]})).

Definition tree_a : TagPy.Object := TagPy.mkObject "aaaa" "tree" None.
Definition tree_b : TagPy.Object := TagPy.mkObject "bbbb" "tree" None.
Definition tree_repo_a : TagPy.Repo :=
  TagPy.mkRepo {[ "refs/tags/v1" := "aaaa" ]} {[ "aaaa" := tree_a ]}.
Definition tree_repo_b : TagPy.Repo :=
  TagPy.mkRepo {[ "refs/tags/v1" := "bbbb" ]} {[ "bbbb" := tree_b ]}.

Definition light_repo : TagPy.Repo :=
  TagPy.mkRepo {[ "refs/tags/v1" := "c0ffee" ]} {[ "c0ffee" := the_commit ]}.

(** The commands of [delete]: the one [git tag -d] for all tags, and the
    [git push origin <tag>] of one tag. *)
Definition delete_cmd (tags : list string) : TagPy.GitCmd :=
  TagPy.Git "tag" ("-d" :: tags) ∅.
Definition push_delete_cmd (kwargs : gmap string TagPy.kwvalue) (tag : string)
  : TagPy.GitCmd :=
  TagPy.Git "push" ["origin"; tag] (<["d" := TagPy.KTrue]> kwargs).

(** The commands run once [delete] has deleted [tags] locally and pushed the
    deletion of [pushed]. *)
Definition ran (log : list TagPy.GitCmd) (kwargs : gmap string TagPy.kwvalue)
           (tags pushed : list string) : list TagPy.GitCmd :=
  log ++ delete_cmd tags :: map (push_delete_cmd kwargs) pushed.

(** A backend on which every [push] fails with [status] and everything else
    succeeds. *)
Definition push_fails (status : Z) : TagPy.Backend :=
  fun _ cmd => if String.eqb (TagPy.sub cmd) "push" then Some status else None.

(** A backend on which the [push] of [bad] fails with [status]. *)
Definition push_of_fails (bad : string) (status : Z) : TagPy.Backend :=
  fun _ cmd =>
    if String.eqb (TagPy.sub cmd) "push" && existsb (String.eqb bad) (TagPy.args cmd)
    then Some status else None.

(** *** What a match of a pattern is

    [span st w st']: from [st] the matcher read the text [w] and stands at
    [st'], the groups untouched. *)
Definition span (st : mstate) (w : string) (st' : mstate) : Prop :=
  rest st = w +:+ rest st'
  /\ pos st' = pos st + String.length w
  /\ caps st' = caps st.

(** Every character of [w] is in the class [p]. *)
Fixpoint all_chars (p : ascii -> bool) (w : string) : bool :=
  match w with
  | EmptyString => true
  | String c t => p c && all_chars p t
  end.

(** [matches r st st']: the pattern [r] can take the matcher from [st] to
    [st']. The search order of [run] is not part of it: it holds of every
    way to match, so what holds of all of them holds of the one [run]
    finds. *)
Inductive matches : regex -> mstate -> mstate -> Prop :=
| matches_Lit s st st' :
    span st s st' -> matches (Lit s) st st'
| matches_Cls p c st st' :
    p c = true -> span st (String c "") st' -> matches (Cls p) st st'
| matches_Plus p w st st' :
    w <> "" -> all_chars p w = true -> span st w st' -> matches (Plus p) st st'
| matches_Bol st : at_bol st = true -> matches Bol st st
| matches_Eol st : at_eol st = true -> matches Eol st st
| matches_Seq r1 r2 st st1 st2 :
    matches r1 st st1 -> matches r2 st1 st2 -> matches (Seq r1 r2) st st2
| matches_Alt_l r1 r2 st st' : matches r1 st st' -> matches (Alt r1 r2) st st'
| matches_Alt_r r1 r2 st st' : matches r2 st st' -> matches (Alt r1 r2) st st'
| matches_Opt_some r st st' : matches r st st' -> matches (Opt r) st st'
| matches_Opt_none r st : matches (Opt r) st st
| matches_Grp g r st st' :
    matches r st st' ->
    matches (Grp g r) st
      (set_group g (substring 0 (pos st' - pos st) (rest st)) st').

(** The sets of groups a match of the pattern can set, one list for each
    choice of alternatives and options. *)
Fixpoint domains (r : regex) : list (list string) :=
  match r with
  | Seq r1 r2 => flat_map (fun d1 => map (app d1) (domains r2)) (domains r1)
  | Alt r1 r2 => domains r1 ++ domains r2
  | Opt r' => domains r' ++ [[]]
  | Grp g r' => map (cons g) (domains r')
  | _ => [[]]
  end.

(** The groups of the form [(?P<name>class+)] with their classes; the
    pattern of [diff_header] has no group of another form. *)
Fixpoint plus_groups (r : regex) : list (string * (ascii -> bool)) :=
  match r with
  | Seq r1 r2 | Alt r1 r2 => plus_groups r1 ++ plus_groups r2
  | Opt r' => plus_groups r'
  | Grp g (Plus p) => [(g, p)]
  | Grp g r' => plus_groups r'
  | _ => []
  end.

Fixpoint plus_groups_only (r : regex) : bool :=
  match r with
  | Seq r1 r2 | Alt r1 r2 => plus_groups_only r1 && plus_groups_only r2
  | Opt r' => plus_groups_only r'
  | Grp _ (Plus _) => true
  | Grp _ _ => false
  | _ => true
  end.

(** The 256 characters. *)
Definition all_ascii : list ascii := map ascii_of_nat (seq 0 256).

(** The class holds of the line feed at most. *)
Definition class_only_lf (p : ascii -> bool) : bool :=
  forallb (fun c => negb (p c) || Ascii.eqb c LF) all_ascii.

(** Every match of the pattern reads a line feed. *)
Fixpoint reads_lf (r : regex) : bool :=
  match r with
  | Cls p => class_only_lf p
  | Seq r1 r2 => reads_lf r1 || reads_lf r2
  | Alt r1 r2 => reads_lf r1 && reads_lf r2
  | Grp _ r' => reads_lf r'
  | _ => false
  end.

(** [c in w] *)
Fixpoint has_char (c : ascii) (w : string) : bool :=
  match w with
  | EmptyString => false
  | String d t => Ascii.eqb d c || has_char c t
  end.

(** Membership in a list of names, as a test. *)
Definition mem (g : string) (D : list string) : bool := existsb (String.eqb g) D.

(** A tag object that tags itself: no repository of git holds one, but the
    loop of [commit] does not rule it out. *)
Definition self_tag : TagPy.Object := TagPy.mkObject "5e1f" "tag" (Some "5e1f").
Definition self_tag_repo : TagPy.Repo :=
  TagPy.mkRepo {[ "refs/tags/v1" := "5e1f" ]} {[ "5e1f" := self_tag ]}.

(** A backend on which every command succeeds. *)
Definition all_succeed : TagPy.Backend := fun _ _ => None.

(** A backend on which [git tag] fails with [status]. *)
Definition tag_fails (status : Z) : TagPy.Backend :=
  fun _ cmd => if String.eqb (TagPy.sub cmd) "tag" then Some status else None.

(** The keyword arguments [create] gives to [git tag]: the caller's, with
    [m] set to a non-empty message and [f] set when forcing. *)
Definition create_tag_kwargs (message : option string) (force : bool)
           (kwargs : gmap string TagPy.kwvalue) : gmap string TagPy.kwvalue :=
  let kw := match message with
            | Some (String c m) => <["m" := TagPy.KStr (String c m)]> kwargs
            | _ => kwargs
            end in
  if force then <["f" := TagPy.KTrue]> kw else kw.

Definition create_tag_cmd (tag ref : string) (message : option string) (force : bool)
           (kwargs : gmap string TagPy.kwvalue) : TagPy.GitCmd :=
  TagPy.Git "tag" [tag; ref] (create_tag_kwargs message force kwargs).

(** [glue pieces x]: the pieces of a text when the text [x] follows it: the
    last piece goes on into [x]. *)
Fixpoint glue (pieces : list string) (x : string) : list string :=
  match pieces with
  | [] => []
  | [p] => split_from separator x 0 p
  | p :: more => p :: glue more x
  end.

(** *** Header lines written out

    The fields of the header of one file, as the lines of [git diff] give
    them: the two paths; similarity index, source and target of a rename;
    old and new mode; the mode of a new file; the mode of a deleted file;
    the two hashes of the index line and the mode behind them. *)
Record header_fields := mkFields {
  f_a_path : string;
  f_b_path : string;
  f_rename : option (string * string * string);
  f_modes : option (string * string);
  f_new_file_mode : option string;
  f_deleted_file_mode : option string;
  f_index : option (string * string * option string)
}.

Definition rename_lines (x : string * string * string) : string :=
  let '(similarity, from, to) := x in
  "similarity index " +:+ similarity +:+ "%" +:+ nl
  +:+ "rename from " +:+ from +:+ nl
  +:+ "rename to " +:+ to +:+ nl.

Definition mode_lines (x : string * string) : string :=
  let '(old, new) := x in
  "old mode " +:+ old +:+ nl +:+ "new mode " +:+ new +:+ nl.

Definition new_file_line_of (m : string) : string := "new file mode " +:+ m +:+ nl.

Definition deleted_file_line_of (m : string) : string :=
  "deleted file mode " +:+ m +:+ nl.

Definition index_line_of (x : string * string * option string) : string :=
  let '(a, b, m) := x in
  "index " +:+ a +:+ ".." +:+ b
  +:+ match m with Some m => " " +:+ m | None => "" end +:+ nl.

Definition opt_lines {A} (f : A -> string) (o : option A) : string :=
  match o with
  | Some a => f a
  | None => ""
  end.

(** The segment of a file: what follows [diff --git], the header lines in
    the order of [git diff], then the body. *)
Definition write_segment (f : header_fields) (body : string) : string :=
  " a/" +:+ f_a_path f +:+ " b/" +:+ f_b_path f +:+ nl
  +:+ opt_lines rename_lines (f_rename f)
  +:+ opt_lines mode_lines (f_modes f)
  +:+ opt_lines new_file_line_of (f_new_file_mode f)
  +:+ opt_lines deleted_file_line_of (f_deleted_file_mode f)
  +:+ opt_lines index_line_of (f_index f)
  +:+ body.

(** A non-empty string of characters of a class. *)
Definition token (p : ascii -> bool) (w : string) : Prop :=
  w <> "" /\ all_chars p w = true.

Definition option_all {A} (P : A -> Prop) (o : option A) : Prop :=
  match o with
  | Some a => P a
  | None => True
  end.

(** The fields are tokens of the kinds [git diff] writes: paths without
    white space, digits for similarity and mode changes, hexadecimal
    hashes, and modes of new and deleted files and of the index line that
    stay on their line. *)
Definition fields_ok (f : header_fields) : Prop :=
  token non_space (f_a_path f) /\ token non_space (f_b_path f)
  /\ option_all (fun '(s, from, to) =>
                   token digit s /\ token non_space from /\ token non_space to)
       (f_rename f)
  /\ option_all (fun '(old, new) => token digit old /\ token digit new) (f_modes f)
  /\ option_all (token dot) (f_new_file_mode f)
  /\ option_all (token dot) (f_deleted_file_mode f)
  /\ option_all (fun '(a, b, m) =>
                   token hexdigit a /\ token hexdigit b /\ option_all (token dot) m)
       (f_index f).

(** The body does not begin like a header line: it is empty or its first
    character is none of those the header lines begin with. *)
Definition body_ok (body : string) : bool :=
  match body with
  | EmptyString => true
  | String c _ =>
      negb (existsb (Ascii.eqb c) ["s"; "o"; "n"; "d"; "i"]%char)
  end.

(** The text is empty or begins with a character that is not in the class. *)
Definition stops (p : ascii -> bool) (t : string) : bool :=
  match t with
  | EmptyString => true
  | String c _ => negb (p c)
  end.

(** The last character read: of [w], or [pv] when [w] is empty. *)
Fixpoint last_char (w : string) (pv : option ascii) : option ascii :=
  match w with
  | EmptyString => pv
  | String c t => last_char t (Some c)
  end.

(** The groups a header sets, block by block, in the order of the pattern. *)
Definition set_rename (o : option (string * string * string))
           (cs : gmap string string) : gmap string string :=
  match o with
  | Some (s, from, to) =>
      <["rename_to" := to]> (<["rename_from" := from]> (<["similarity_index" := s]> cs))
  | None => cs
  end.

Definition set_modes (o : option (string * string)) (cs : gmap string string)
  : gmap string string :=
  match o with
  | Some (old, new) => <["new_mode" := new]> (<["old_mode" := old]> cs)
  | None => cs
  end.

Definition set_one (g : string) (o : option string) (cs : gmap string string)
  : gmap string string :=
  match o with
  | Some m => <[g := m]> cs
  | None => cs
  end.

Definition set_index (o : option (string * string * option string))
           (cs : gmap string string) : gmap string string :=
  match o with
  | Some (a, b, m) => set_one "b_mode" m (<["b_commit" := b]> (<["a_commit" := a]> cs))
  | None => cs
  end.

Definition fields_caps (f : header_fields) : gmap string string :=
  set_index (f_index f)
    (set_one "deleted_file_mode" (f_deleted_file_mode f)
       (set_one "new_file_mode" (f_new_file_mode f)
          (set_modes (f_modes f)
             (set_rename (f_rename f)
                (<["b_path" := f_b_path f]> (<["a_path" := f_a_path f]> ∅)))))).

(** The record of a segment written from fields. *)
Definition fields_record (f : header_fields) (body : string) : Diff :=
  mkDiff (Some (f_a_path f)) (Some (f_b_path f))
    (match f_index f with Some (a, _, _) => Some a | None => None end)
    (match f_index f with Some (_, b, _) => Some b | None => None end)
    (match f_modes f with
     | Some (old, _) => Some old
     | None => f_deleted_file_mode f
     end)
    (match f_modes f with
     | Some (_, new) => Some new
     | None =>
         match f_new_file_mode f with
         | Some m => Some m
         | None => match f_index f with Some (_, _, m) => m | None => None end
         end
     end)
    (match f_new_file_mode f with Some _ => true | None => false end)
    (match f_deleted_file_mode f with Some _ => true | None => false end)
    body.

(** The fields of a deleted file whose index line has a mode, and those of
    a rename with a mode change. *)
Definition written_example : header_fields :=
  mkFields "x" "y" None None None (Some "100644")
    (Some ("e69de29", "0000000", Some "100600")).

Definition written_rename : header_fields :=
  mkFields "old.py" "new.py" (Some ("90", "old.py", "new.py"))
    (Some ("100644", "100755")) None None None.

(** * Properties *)

(** ** The matcher *)

Section Matcher.

Implicit Types (r : regex) (st : mstate) (k : mstate -> option mstate).

Lemma substring_nonempty (n : nat) (s : string) :
  0 < n -> s <> "" -> substring 0 n s <> "".
Proof.
  destruct n as [|n]; [lia|]. destruct s as [|c s]; [congruence|].
  intros _ _. simpl. discriminate.
Qed.

Lemma lit_sound (s : string) : forall st st',
  lit s st = Some st' ->
  pos st' = pos st + String.length s
  /\ String.length (rest st) = String.length s + String.length (rest st')
  /\ caps st' = caps st.
Proof.
  induction s as [|c s IH]; intros st st' H; simpl in H.
  - inversion H; subst. simpl. repeat split; lia.
  - destruct (rest st) as [|d t] eqn:E; [discriminate|].
    destruct (Ascii.eqb c d); [|discriminate].
    apply IH in H. simpl in *. destruct H as (Hp & Hl & Hc).
    repeat split; [lia | lia | assumption].
Qed.

Lemma star_sound (p : ascii -> bool) (s : string) :
  forall n pv cs k R,
    star p s n pv cs k = Some R ->
    exists st' j, pos st' = n + j
      /\ String.length s = j + String.length (rest st')
      /\ caps st' = cs /\ k st' = Some R.
Proof.
  induction s as [|c s IH]; intros n pv cs k R H; simpl in H.
  - exists (MState n pv "" cs), 0. simpl. repeat split; [lia | assumption].
  - assert (Hstop : k (MState n pv (String c s) cs) = Some R ->
              exists st' j, pos st' = n + j
                /\ String.length (String c s) = j + String.length (rest st')
                /\ caps st' = cs /\ k st' = Some R).
    { intros Hk. exists (MState n pv (String c s) cs), 0. simpl.
      repeat split; [lia | assumption]. }
    destruct (p c); [|auto].
    destruct (star p s (S n) (Some c) cs k) as [R'|] eqn:E; [|auto].
    inversion H; subst R'. apply IH in E.
    destruct E as (st' & j & Hp & Hl & Hc & Hk).
    exists st', (S j). simpl. repeat split; [lia | lia | assumption | assumption].
Qed.

(** Whatever [run] returns was returned by the continuation, at a state
    further into the subject whose new groups are not empty. *)
Lemma run_sound r :
  groups_consume r = true ->
  forall st k R,
    run r st k = Some R ->
    exists st' n,
      pos st' = pos st + n
      /\ String.length (rest st) = n + String.length (rest st')
      /\ (consumes r = true -> 0 < n)
      /\ (captures_nonempty st -> captures_nonempty st')
      /\ k st' = Some R.
Proof.
  induction r as [s|p|p| | |r1 IH1 r2 IH2|r1 IH1 r2 IH2|r IH|g r IH];
    intros Hwf st k R H; simpl in H.
  - destruct (lit s st) as [st'|] eqn:E; [|discriminate].
    apply lit_sound in E. destruct E as (Hp & Hl & Hc).
    exists st', (String.length s). repeat split; auto.
    + destruct s; simpl; [discriminate | lia].
    + unfold captures_nonempty. now rewrite Hc.
  - destruct (rest st) as [|c t] eqn:E; [discriminate|].
    destruct (p c); [|discriminate].
    exists (advance c t st), 1. simpl. repeat split; auto; lia.
  - unfold plus in H. destruct (rest st) as [|c t] eqn:E; [discriminate|].
    destruct (p c); [|discriminate].
    apply star_sound in H. destruct H as (st' & j & Hp & Hl & Hc & Hk).
    exists st', (S j). simpl. repeat split; auto; try lia.
    unfold captures_nonempty. now rewrite Hc.
  - destruct (at_bol st); [|discriminate].
    exists st, 0. repeat split; auto; try lia. simpl; discriminate.
  - destruct (at_eol st); [|discriminate].
    exists st, 0. repeat split; auto; try lia. simpl; discriminate.
  - simpl in Hwf. apply andb_true_iff in Hwf. destruct Hwf as [W1 W2].
    apply (IH1 W1) in H. destruct H as (st1 & n1 & Hp1 & Hl1 & Hc1 & Hg1 & H).
    apply (IH2 W2) in H. destruct H as (st2 & n2 & Hp2 & Hl2 & Hc2 & Hg2 & H).
    exists st2, (n1 + n2). repeat split; auto; try lia.
    simpl. intros Hc. apply orb_true_iff in Hc. destruct Hc as [Hc|Hc];
      [specialize (Hc1 Hc) | specialize (Hc2 Hc)]; lia.
  - simpl in Hwf. apply andb_true_iff in Hwf. destruct Hwf as [W1 W2].
    destruct (run r1 st k) as [R1|] eqn:E.
    + inversion H; subst R1. apply (IH1 W1) in E.
      destruct E as (st' & n & Hp & Hl & Hc & Hg & Hk).
      exists st', n. repeat split; auto. simpl. intros C.
      apply andb_true_iff in C. tauto.
    + apply (IH2 W2) in H.
      destruct H as (st' & n & Hp & Hl & Hc & Hg & Hk).
      exists st', n. repeat split; auto. simpl. intros C.
      apply andb_true_iff in C. tauto.
  - simpl in Hwf. destruct (run r st k) as [R1|] eqn:E.
    + inversion H; subst R1. apply (IH Hwf) in E.
      destruct E as (st' & n & Hp & Hl & Hc & Hg & Hk).
      exists st', n. repeat split; auto. simpl; discriminate.
    + exists st, 0. repeat split; auto; try lia. simpl; discriminate.
  - simpl in Hwf. apply andb_true_iff in Hwf. destruct Hwf as [C W].
    apply (IH W) in H. destruct H as (st' & n & Hp & Hl & Hc & Hg & Hk).
    specialize (Hc C).
    exists (set_group g (substring 0 (pos st' - pos st) (rest st)) st'), n.
    simpl. repeat split; auto.
    intros G. unfold captures_nonempty. simpl.
    apply map_Forall_insert_2; [|now apply Hg].
    apply substring_nonempty; [lia|].
    destruct (rest st); simpl in Hl; [lia | discriminate].
Qed.

End Matcher.

Section MatcherFailure.

Implicit Types (r : regex) (st : mstate) (k : mstate -> option mstate).

Lemma star_fail_iff (p : ascii -> bool) (s : string) :
  forall n pv cs k k',
    (forall st, k st = None <-> k' st = None) ->
    (star p s n pv cs k = None <-> star p s n pv cs k' = None).
Proof.
  induction s as [|c s IH]; intros n pv cs k k' Hk; simpl; [apply Hk|].
  destruct (p c); [|apply Hk].
  specialize (IH (S n) (Some c) cs k k' Hk).
  destruct (star p s (S n) (Some c) cs k), (star p s (S n) (Some c) cs k');
    try (split; discriminate); try apply Hk.
  - destruct IH as [_ IH]. specialize (IH eq_refl). discriminate.
  - destruct IH as [IH _]. specialize (IH eq_refl). discriminate.
Qed.

(** Whether [run] fails depends only on where its continuation fails. *)
Lemma run_fail_iff r :
  forall st k k',
    (forall st', k st' = None <-> k' st' = None) ->
    (run r st k = None <-> run r st k' = None).
Proof.
  induction r as [s|p|p| | |r1 IH1 r2 IH2|r1 IH1 r2 IH2|r IH|g r IH];
    intros st k k' Hk; simpl.
  - destruct (lit s st); [apply Hk | tauto].
  - destruct (rest st) as [|c t]; [tauto|]. destruct (p c); [apply Hk | tauto].
  - unfold plus. destruct (rest st) as [|c t]; [tauto|].
    destruct (p c); [|tauto]. now apply star_fail_iff.
  - destruct (at_bol st); [apply Hk | tauto].
  - destruct (at_eol st); [apply Hk | tauto].
  - apply IH1. intros st'. now apply IH2.
  - specialize (IH1 st k k' Hk). specialize (IH2 st k k' Hk).
    destruct (run r1 st k), (run r1 st k'); try (split; discriminate); auto.
    + destruct IH1 as [_ F]. specialize (F eq_refl). discriminate.
    + destruct IH1 as [F _]. specialize (F eq_refl). discriminate.
  - specialize (IH st k k' Hk).
    destruct (run r st k), (run r st k'); try (split; discriminate); try apply Hk.
    + destruct IH as [_ F]. specialize (F eq_refl). discriminate.
    + destruct IH as [F _]. specialize (F eq_refl). discriminate.
  - apply IH. intros st'. apply Hk.
Qed.

(** An optional pattern fails only where what follows it fails. *)
Lemma run_Opt_none r st k : run (Opt r) st k = None -> k st = None.
Proof. simpl. destruct (run r st k); [discriminate | auto]. Qed.

Lemma run_Opt_Seq_none r r' st k :
  run (Opt r ;;; r') st k = None -> run r' st k = None.
Proof. intros H. change (run (Opt r) st (fun st' => run r' st' k) = None) in H.
       now apply run_Opt_none in H. Qed.

End MatcherFailure.

(** ** The diff header *)

Section DiffHeader.

(** The lines after the path pair are all optional: they never make the
    match fail. *)
Lemma optional_lines_total (st : mstate) : run optional_lines st Some <> None.
Proof.
  intros H. unfold optional_lines in H.
  do 4 apply run_Opt_Seq_none in H.
  apply run_Opt_none in H. discriminate.
Qed.

(** The header matches exactly when its first line does. *)
Lemma diff_header_none_iff (seg : string) :
  diff_header seg = None <-> match_ path_pair_line seg = None.
Proof.
  unfold diff_header, match_, diff_header_re.
  change (run (path_pair_line ;;; optional_lines) (MState 0 None seg ∅) Some)
    with (run path_pair_line (MState 0 None seg ∅)
            (fun st' => run optional_lines st' Some)).
  apply run_fail_iff. intros st'. split; intros H.
  - now apply optional_lines_total in H.
  - discriminate.
Qed.

Lemma diff_header_captures (seg : string) (header : mstate) :
  diff_header seg = Some header -> captures_nonempty header.
Proof.
  intros H. unfold diff_header, match_ in H.
  apply run_sound in H; [|reflexivity].
  destruct H as (st' & n & _ & _ & _ & Hg & Hk).
  inversion Hk; subst. apply Hg. apply map_Forall_empty.
Qed.

Lemma group_nonempty (seg : string) (header : mstate) (g v : string) :
  diff_header seg = Some header -> group header g = Some v -> v <> "".
Proof.
  intros H Hg. apply diff_header_captures in H. exact (H g v Hg).
Qed.

Lemma truthy_group (seg : string) (header : mstate) (g : string) :
  diff_header seg = Some header ->
  truthy (group header g) = match group header g with Some _ => true | None => false end.
Proof.
  intros H. destruct (group header g) as [v|] eqn:E; [|reflexivity].
  apply (group_nonempty _ _ _ _ H) in E. destruct v; [congruence | reflexivity].
Qed.

Lemma py_or_present (x y : option string) :
  (forall v, x = Some v -> v <> "") ->
  py_or x y = match x with Some v => Some v | None => y end.
Proof.
  intros H. unfold py_or. destruct x as [[|c v]|]; try reflexivity.
  now destruct (H "" eq_refl).
Qed.

(** The record the loop body builds from a header that matched. *)
Lemma loop_body_Some (seg : string) (header : mstate) :
  diff_header seg = Some header ->
  loop_body seg =
    Return (mkDiff (group header "a_path") (group header "b_path")
              (group header "a_commit") (group header "b_commit")
              (py_or (group header "old_mode") (group header "deleted_file_mode"))
              (py_or (py_or (group header "new_mode") (group header "new_file_mode"))
                 (group header "b_mode"))
              (truthy (group header "new_file_mode"))
              (truthy (group header "deleted_file_mode"))
              (drop_str (end_ header) seg)).
Proof. intros H. unfold loop_body. rewrite H. reflexivity. Qed.

Lemma loop_body_None (seg : string) :
  diff_header seg = None -> loop_body seg = Raise (AttributeError no_groups).
Proof. intros H. unfold loop_body. now rewrite H. Qed.

Lemma loop_body_Return (seg : string) (d : Diff) :
  loop_body seg = Return d -> exists header, diff_header seg = Some header.
Proof.
  destruct (diff_header seg) as [h|] eqn:E; [eauto|].
  rewrite (loop_body_None _ E). discriminate.
Qed.

Lemma loop_app (acc : list Diff) (segs : list string) :
  loop acc segs =
    match loop [] segs with
    | Return ds => Return (acc ++ ds)
    | Raise e => Raise e
    end.
Proof.
  revert acc. induction segs as [|seg segs IH]; intros acc; simpl.
  - now rewrite app_nil_r.
  - destruct (loop_body seg) as [d|e]; simpl; [|reflexivity].
    rewrite (IH (acc ++ [d])), (IH [d]).
    destruct (loop [] segs); [|reflexivity]. now rewrite <- app_assoc.
Qed.

Lemma loop_cons (seg : string) (segs : list string) :
  loop [] (seg :: segs) =
    match loop_body seg with
    | Return d =>
        match loop [] segs with
        | Return ds => Return (d :: ds)
        | Raise e => Raise e
        end
    | Raise e => Raise e
    end.
Proof.
  simpl. destruct (loop_body seg) as [d|e]; simpl; [|reflexivity].
  now rewrite loop_app.
Qed.

(** A successful loop made one record of each segment, in order. *)
Lemma loop_Return (segs : list string) :
  forall ds, loop [] segs = Return ds ->
             Forall2 (fun seg d => loop_body seg = Return d) segs ds.
Proof.
  induction segs as [|seg segs IH]; intros ds H.
  - inversion H. constructor.
  - rewrite loop_cons in H. destruct (loop_body seg) as [d|e] eqn:E; [|discriminate].
    destruct (loop [] segs) as [ds'|e]; [|discriminate].
    inversion H; subst. constructor; auto.
Qed.

Lemma loop_all_match (segs : list string) :
  Forall (fun seg => diff_header seg <> None) segs ->
  exists ds, loop [] segs = Return ds.
Proof.
  induction 1 as [|seg segs Hseg _ IH]; [now exists []|].
  destruct IH as [ds IH]. rewrite loop_cons, IH.
  destruct (diff_header seg) as [h|] eqn:E; [|congruence].
  rewrite (loop_body_Some _ _ E). eauto.
Qed.

(** One segment without a header makes the whole loop raise. *)
Lemma loop_Raise (segs : list string) (seg : string) :
  In seg segs -> diff_header seg = None ->
  loop [] segs = Raise (AttributeError no_groups).
Proof.
  induction segs as [|s segs IH]; intros Hin Hnone; [destruct Hin|].
  rewrite loop_cons. destruct (diff_header s) as [h|] eqn:E.
  - rewrite (loop_body_Some _ _ E). destruct Hin as [->|Hin]; [congruence|].
    now rewrite (IH Hin Hnone).
  - now rewrite (loop_body_None _ E).
Qed.

End DiffHeader.

(** The matcher on some headers: a rename block that breaks off leaves its
    groups unset and the match ends behind the first line; an index line
    with and without a mode. *)
Example header_rename_block_broken :
  (h ← diff_header (lines [ " a/x b/y"; "similarity index 90%"; "rename from x";
                            "old mode 1"; "new mode 2" ]);
   Some (groups diff_header_re h, end_ h))
  = Some ([Some "x"; Some "y"; None; None; None; None; None; None; None;
           None; None; None], 9).
Proof. vm_compute. reflexivity. Qed.

Example header_index_line :
  (h ← diff_header (lines [ " a/x b/y"; "index abc..defg 100644"; "@@" ]);
   Some (groups diff_header_re h, drop_str (end_ h) (lines [ " a/x b/y"; "index abc..defg 100644"; "@@" ])))
  = Some ([Some "x"; Some "y"; None; None; None; None; None; None; None;
           Some "abc"; Some "def"; Some "g 100644"], "@@")
  /\ (h ← diff_header (lines [ " a/x b/y"; "index abc..def" ]);
      Some (groups diff_header_re h))
     = Some [Some "x"; Some "y"; None; None; None; None; None; None; None;
             Some "abc"; Some "def"; None].
Proof. split; vm_compute; reflexivity. Qed.

Example header_needs_line_feed : diff_header " a/x b/y" = None.
Proof. vm_compute. reflexivity. Qed.

(** ** Splitting the text *)

Example split_examples :
  split "," "a,b,,c," = ["a"; "b"; ""; "c"; ""]
  /\ split "aa" "aaa" = [""; "a"]
  /\ segments (lines [ "junk"; "diff --git a"; "diff --git"; "diff --gitx" ])
     = [" a"; ""; "x"]
  /\ marker_lines (lines [ "junk"; "diff --git a"; "x diff --git"; "diff --gitx" ]) = 2.
Proof. repeat split; vm_compute; reflexivity. Qed.

Section Split.

Lemma append_assoc3 (a b c : string) : (a +:+ b) +:+ c = a +:+ (b +:+ c).
Proof. induction a as [|x a IH]; simpl; [reflexivity | now f_equal]. Qed.

Lemma prefix_split (p s : string) :
  String.prefix p s = true -> exists t, s = p +:+ t.
Proof.
  revert s. induction p as [|a p IH]; intros s H; [now exists s|].
  destruct s as [|b s]; simpl in H; [discriminate|].
  destruct (ascii_dec a b) as [->|]; [|discriminate].
  destruct (IH _ H) as [t ->]. now exists t.
Qed.

Lemma prefix_append (p s : string) : String.prefix p (p +:+ s) = true.
Proof.
  induction p as [|a p IH]; simpl; [now destruct s|].
  destruct (ascii_dec a a); [assumption | congruence].
Qed.

(** Passing over the characters of a separator. *)
Lemma split_from_skip (sep w s cur : string) :
  split_from sep (w +:+ s) (String.length w) cur = split_from sep s 0 cur.
Proof. induction w as [|c w IH]; simpl; [reflexivity | exact IH]. Qed.

Lemma append_nil_r (a : string) : a +:+ "" = a.
Proof. induction a as [|x a IH]; simpl; [reflexivity | now f_equal]. Qed.

Lemma length_append (a b : string) :
  String.length (a +:+ b) = String.length a + String.length b.
Proof. induction a as [|x a IH]; simpl; [reflexivity | now f_equal]. Qed.

Lemma split_from_cons (sep : string) (c : ascii) (t cur : string) :
  split_from sep (String c t) 0 cur =
    if String.prefix sep (String c t)
    then cur :: split_from sep t (String.length sep - 1) ""
    else split_from sep t 0 (cur +:+ String c "").
Proof. reflexivity. Qed.

Lemma occurrences_cons (sep : string) (c : ascii) (t : string) :
  occurrences sep (String c t) =
    (if String.prefix sep (String c t) then 1 else 0) + occurrences sep t.
Proof. reflexivity. Qed.

(** The separator does not overlap itself: behind one occurrence the next
    one starts no earlier than its end. *)
Lemma occurrences_separator (s : string) :
  occurrences separator (separator +:+ s) = S (occurrences separator s).
Proof.
  change (separator +:+ s) with (String LF (marker +:+ s)).
  rewrite occurrences_cons.
  change (String LF (marker +:+ s)) with (separator +:+ s).
  rewrite prefix_append. reflexivity.
Qed.

Lemma split_from_separator (s cur : string) :
  split_from separator (separator +:+ s) 0 cur = cur :: split_from separator s 0 "".
Proof.
  change (separator +:+ s) with (String LF (marker +:+ s)).
  rewrite split_from_cons.
  change (String LF (marker +:+ s)) with (separator +:+ s).
  rewrite prefix_append. reflexivity.
Qed.

(** [split] cuts at every occurrence of the separator. *)
Lemma split_from_length (n : nat) :
  forall s cur, String.length s <= n ->
    length (split_from separator s 0 cur) = S (occurrences separator s).
Proof.
  induction n as [|n IH]; intros s cur Hn.
  - destruct s; [reflexivity | simpl in Hn; lia].
  - destruct s as [|c t]; [reflexivity|].
    destruct (String.prefix separator (String c t)) eqn:E.
    + apply prefix_split in E. destruct E as [u E]. rewrite E.
      rewrite split_from_separator, occurrences_separator. simpl. f_equal.
      apply IH. apply (f_equal String.length) in E.
      rewrite length_append in E. simpl in E, Hn. lia.
    + rewrite split_from_cons, occurrences_cons, E. simpl in Hn.
      apply IH. lia.
Qed.

(** Putting the separator back between the pieces gives the subject. *)
Lemma join_split_from (n : nat) :
  forall s cur, String.length s <= n ->
    join separator (split_from separator s 0 cur) = cur +:+ s.
Proof.
  induction n as [|n IH]; intros s cur Hn.
  - destruct s; [simpl; now rewrite append_nil_r | simpl in Hn; lia].
  - destruct s as [|c t]; [simpl; now rewrite append_nil_r|].
    destruct (String.prefix separator (String c t)) eqn:E.
    + apply prefix_split in E. destruct E as [u E]. rewrite E.
      rewrite split_from_separator.
      assert (Hu : String.length u <= n).
      { apply (f_equal String.length) in E.
        rewrite length_append in E. simpl in E, Hn. lia. }
      pose proof (split_from_length n u "" Hu) as Hlen.
      pose proof (IH u "" Hu) as Hjoin.
      destruct (split_from separator u 0 "") as [|x l]; [discriminate|].
      change (join separator (cur :: x :: l))
        with (cur +:+ separator +:+ join separator (x :: l)).
      now rewrite Hjoin.
    + rewrite split_from_cons, E. simpl in Hn.
      rewrite IH by lia. rewrite append_assoc3. reflexivity.
Qed.

(** An occurrence of the separator is a line that starts with the marker. *)
Lemma occurrences_marker_lines (t : string) :
  forall c, occurrences separator (String c t) = count_marker_lines (Ascii.eqb c LF) t.
Proof.
  induction t as [|d t IH]; intros c.
  - rewrite occurrences_cons.
    change (String.prefix separator (String c ""))
      with (if ascii_dec LF c then false else false).
    now destruct (ascii_dec LF c).
  - rewrite occurrences_cons, IH.
    change (count_marker_lines (Ascii.eqb c LF) (String d t))
      with ((if Ascii.eqb c LF && String.prefix marker (String d t) then 1 else 0)
            + count_marker_lines (Ascii.eqb d LF) t).
    f_equal.
    change (String.prefix separator (String c (String d t)))
      with (if ascii_dec LF c then String.prefix marker (String d t) else false).
    destruct (ascii_dec LF c) as [<-|Hne].
    + reflexivity.
    + destruct (Ascii.eqb_spec c LF) as [->|_]; [congruence | reflexivity].
Qed.

Lemma split_segments (text : string) :
  exists before, split separator (nl +:+ text) = before :: segments text.
Proof.
  unfold segments.
  pose proof (split_from_length _ (nl +:+ text) "" (le_n _)) as H.
  unfold split. destruct (split_from separator (nl +:+ text) 0 "") as [|b l];
    [discriminate | now exists b].
Qed.

Lemma segments_length (text : string) :
  length (segments text) = marker_lines text.
Proof.
  destruct (split_segments text) as [before H].
  pose proof (split_from_length _ (nl +:+ text) "" (le_n _)) as L.
  unfold split in H. rewrite H in L. simpl in L. injection L as L.
  rewrite L. apply (occurrences_marker_lines text LF).
Qed.

Lemma prefix_append_l (p a b : string) :
  String.prefix p a = true -> String.prefix p (a +:+ b) = true.
Proof.
  intros H. apply prefix_split in H. destruct H as [t ->].
  rewrite append_assoc3. apply prefix_append.
Qed.

(** Occurrences in two texts are still there when one follows the other. *)
Lemma occurrences_append (sep a b : string) :
  occurrences sep a + occurrences sep b <= occurrences sep (a +:+ b).
Proof.
  induction a as [|c a IH]; [simpl; lia|].
  change (String c a +:+ b) with (String c (a +:+ b)).
  rewrite !occurrences_cons.
  destruct (String.prefix sep (String c a)) eqn:E.
  - change (String c (a +:+ b)) with (String c a +:+ b).
    rewrite (prefix_append_l _ _ b E). lia.
  - destruct (String.prefix sep (String c (a +:+ b))); lia.
Qed.

(** The separators that join puts between the pieces come on top of the
    occurrences inside the pieces. *)
Lemma occurrences_join (l : list string) :
  forall x,
    list_sum (map (occurrences separator) (x :: l)) + length l
    <= occurrences separator (join separator (x :: l)).
Proof.
  induction l as [|y l IH]; intros x.
  - simpl. lia.
  - change (join separator (x :: y :: l))
      with (x +:+ separator +:+ join separator (y :: l)).
    pose proof (occurrences_append separator x (separator +:+ join separator (y :: l))).
    rewrite occurrences_separator in H. specialize (IH y).
    simpl in *. lia.
Qed.

Lemma list_sum_zero (l : list nat) : list_sum l = 0 -> Forall (fun n => n = 0) l.
Proof.
  induction l as [|n l IH]; intros H; constructor; simpl in H; [lia|].
  apply IH. lia.
Qed.

(** The segments are what lies between the separators: together with the
    text before the first separator they make up the subject, and no
    separator is left inside any of them. *)
Lemma segments_join (text : string) :
  exists before,
    nl +:+ text = join separator (before :: segments text)
    /\ Forall (fun piece => occurrences separator piece = 0)
         (before :: segments text).
Proof.
  destruct (split_segments text) as [before H]. exists before.
  assert (J : join separator (before :: segments text) = nl +:+ text).
  { rewrite <- H. exact (join_split_from _ (nl +:+ text) "" (le_n _)). }
  assert (L : S (length (segments text)) = S (occurrences separator (nl +:+ text))).
  { change (S (length (segments text))) with (length (before :: segments text)).
    rewrite <- H. exact (split_from_length _ (nl +:+ text) "" (le_n _)). }
  split; [now rewrite J|].
  pose proof (occurrences_join (segments text) before) as O.
  rewrite J in O.
  assert (Z : list_sum (map (occurrences separator) (before :: segments text)) = 0)
    by lia.
  apply list_sum_zero in Z. apply Forall_map in Z. exact Z.
Qed.

End Split.

(** ** The records *)

(** C2: every record of a parse has [a_mode] (modeBefore) equal to the
    old-mode field when the header has one and to the deleted-file-mode field
    otherwise, and [b_mode] (modeAfter) equal to the new-mode field, else the
    new-file-mode field, else the mode that ends the index line; the example
    of the specification parses to the one record it names. Each fallback is
    taken by a text: a header with a deleted-file-mode and no old mode, one
    with a new-file-mode and no new mode, one with only the mode of the
    index line, one with a new-file-mode and a mode on the index line, one
    with every line, and one with none. *)
Theorem mode_fields_resolve :
  (forall text ds,
     list_from_string text = Return ds ->
     Forall2 (fun seg d =>
                exists header, diff_header seg = Some header
                  /\ a_mode d = mode_before header
                  /\ b_mode d = mode_after header)
             (segments text) ds)
  /\ list_from_string example_text = Return [example_record ""]
  /\ list_from_string example_text' = Return [example_record ""]
  /\ list_from_string
       (file_text [ "deleted file mode 100644"; "index e69de29..0000000" ])
     = Return [file_record (Some "e69de29") (Some "0000000")
                 (Some "100644") None false true]
  /\ list_from_string
       (file_text [ "new file mode 100755"; "index 0000000..e69de29" ])
     = Return [file_record (Some "0000000") (Some "e69de29")
                 None (Some "100755") true false]
  /\ list_from_string (file_text [ "index abc123..def456 100644" ])
     = Return [file_record (Some "abc123") (Some "def456")
                 None (Some "100644") false false]
  /\ list_from_string
       (file_text [ "new file mode 100755"; "index 0000000..e69de29 100644" ])
     = Return [file_record (Some "0000000") (Some "e69de29")
                 None (Some "100755") true false]
  /\ list_from_string
       (file_text [ "old mode 100644"; "new mode 100755"; "new file mode 100600";
                    "deleted file mode 100400"; "index abc123..def456 100700" ])
     = Return [file_record (Some "abc123") (Some "def456")
                 (Some "100644") (Some "100755") true true]
  /\ list_from_string (file_text [])
     = Return [file_record None None None None false false].
Proof.
  split; [|repeat split; vm_compute; reflexivity].
  intros text ds H. apply loop_Return in H.
  eapply Forall2_impl; [exact H|]. clear. intros seg d H. cbv beta in H.
  destruct (loop_body_Return _ _ H) as [header Hh]. exists header.
  rewrite (loop_body_Some _ _ Hh) in H. injection H as <-.
  split; [assumption|]. simpl. unfold mode_before, mode_after.
  pose proof (fun v => group_nonempty _ _ "old_mode" v Hh) as Hold.
  pose proof (fun v => group_nonempty _ _ "new_mode" v Hh) as Hnew.
  pose proof (fun v => group_nonempty _ _ "new_file_mode" v Hh) as Hnf.
  rewrite !py_or_present; auto.
  - destruct (group header "new_mode"); auto.
  - intros v. rewrite py_or_present by auto.
    destruct (group header "new_mode"); auto.
Qed.

Lemma mode_fields_resolve_witness :
  Forall2 (fun seg d =>
             exists header, diff_header seg = Some header
               /\ a_mode d = mode_before header
               /\ b_mode d = mode_after header)
          (segments example_text) [example_record ""].
Proof.
  apply (proj1 mode_fields_resolve example_text). vm_compute. reflexivity.
Defined.

(** C8, as the code has it: in every record of a parse [new_file] holds
    exactly when the header has a new-file-mode field and [deleted_file]
    exactly when it has a deleted-file-mode field. *)
Theorem new_and_deleted_flags :
  forall text ds,
    list_from_string text = Return ds ->
    Forall2 (fun seg d =>
               exists header, diff_header seg = Some header
                 /\ (new_file d = true <-> is_Some (group header "new_file_mode"))
                 /\ (deleted_file d = true <-> is_Some (group header "deleted_file_mode")))
            (segments text) ds.
Proof.
  intros text ds H. apply loop_Return in H.
  eapply Forall2_impl; [exact H|]. clear. intros seg d H. cbv beta in H.
  destruct (loop_body_Return _ _ H) as [header Hh]. exists header.
  rewrite (loop_body_Some _ _ Hh) in H. injection H as <-.
  split; [assumption|]. simpl. rewrite !(truthy_group _ _ _ Hh).
  split.
  - destruct (group header "new_file_mode"); split; intros H;
      try discriminate; eauto. destruct H; discriminate.
  - destruct (group header "deleted_file_mode"); split; intros H;
      try discriminate; eauto. destruct H; discriminate.
Qed.

Lemma new_and_deleted_flags_witness :
  Forall2 (fun seg d =>
             exists header, diff_header seg = Some header
               /\ (new_file d = true <-> is_Some (group header "new_file_mode"))
               /\ (deleted_file d = true <-> is_Some (group header "deleted_file_mode")))
          (segments example_text) [example_record ""].
Proof.
  apply (new_and_deleted_flags example_text). vm_compute. reflexivity.
Defined.

(** C8 as stated fails: a header with both lines gives a record that is a
    new file and a deleted file at once. *)
Lemma new_and_deleted_not_exclusive :
  exists d, list_from_string new_and_deleted_text = Return [d]
            /\ new_file d = true /\ deleted_file d = true.
Proof. eexists. vm_compute. repeat split. Qed.

(** C3, as the code has it: a text with N lines that start with
    [diff --git] is cut into N segments, which together with the text before
    the first of them and the separators are the text (behind an added line
    feed); when every segment starts with a path pair, the parse returns N
    records, the i-th built from the i-th segment. *)
Theorem records_per_marker_line :
  forall text,
    length (segments text) = marker_lines text
    /\ (exists before,
          nl +:+ text = join separator (before :: segments text)
          /\ Forall (fun piece => occurrences separator piece = 0)
               (before :: segments text))
    /\ (Forall (fun seg => match_ path_pair_line seg <> None) (segments text) ->
        exists ds, list_from_string text = Return ds
                   /\ length ds = marker_lines text
                   /\ Forall2 (fun seg d => loop_body seg = Return d) (segments text) ds).
Proof.
  intros text. split; [apply segments_length|]. split; [apply segments_join|].
  intros Hall.
  assert (Hh : Forall (fun seg => diff_header seg <> None) (segments text)).
  { eapply Forall_impl; [exact Hall|]. intros seg Hs Hn. apply Hs.
    now apply diff_header_none_iff. }
  destruct (loop_all_match _ Hh) as [ds Hds]. exists ds.
  split; [exact Hds|]. pose proof (loop_Return _ _ Hds) as F2.
  split; [|exact F2].
  rewrite <- segments_length. symmetry. eapply Forall2_length, F2.
Qed.

Lemma records_per_marker_line_witness :
  exists ds, list_from_string example_text = Return ds
             /\ length ds = marker_lines example_text
             /\ Forall2 (fun seg d => loop_body seg = Return d)
                  (segments example_text) ds.
Proof.
  apply (proj2 (proj2 (records_per_marker_line example_text))).
  replace (segments example_text) with [drop_str 10 example_text]
    by (vm_compute; reflexivity).
  constructor; [|constructor].
  intros H. vm_compute in H. discriminate H.
Defined.

(** C3 as stated fails: one line starts with the marker, and the parse
    raises instead of returning one record. *)
Lemma marker_line_without_record :
  marker_lines malformed_first = 1
  /\ list_from_string malformed_first = Raise (AttributeError no_groups).
Proof. split; vm_compute; reflexivity. Qed.

(** C4, as the code has it: when a segment does not start with a path pair
    the parse raises the [AttributeError] of calling [groups] on [None] and
    returns no record at all; a parse that returns made a record of every
    segment, each of which starts with a path pair. *)
Theorem malformed_header_aborts :
  (forall text seg,
     In seg (segments text) ->
     match_ path_pair_line seg = None ->
     list_from_string text = Raise (AttributeError no_groups))
  /\ (forall text ds,
        list_from_string text = Return ds ->
        length ds = length (segments text)
        /\ Forall (fun seg => match_ path_pair_line seg <> None) (segments text)).
Proof.
  split.
  - intros text seg Hin Hnone. apply (loop_Raise _ seg Hin).
    now apply diff_header_none_iff.
  - intros text ds H. apply loop_Return in H. split.
    + symmetry. eapply Forall2_length, H.
    + induction H as [|seg d l ds' Hsd _ IH]; constructor; [|exact IH].
      intros Hnone. apply diff_header_none_iff, loop_body_None in Hnone.
      congruence.
Qed.

Lemma malformed_header_aborts_witness :
  list_from_string malformed_second = Raise (AttributeError no_groups).
Proof.
  apply (proj1 malformed_header_aborts malformed_second (nl +:+ "@@ -1 +1 @@")).
  - vm_compute. right. left. reflexivity.
  - vm_compute. reflexivity.
Defined.

(** C4 as stated fails: the exception does not tell which segment was
    malformed; the first segment in one text and the second in another raise
    the same exception. *)
Lemma malformed_header_position_lost :
  (exists bad, segments malformed_first = [bad]
               /\ match_ path_pair_line bad = None)
  /\ (exists good bad, segments malformed_second = [good; bad]
                       /\ match_ path_pair_line good <> None
                       /\ match_ path_pair_line bad = None)
  /\ list_from_string malformed_first = list_from_string malformed_second.
Proof.
  split; [|split].
  - eexists. split; vm_compute; reflexivity.
  - do 2 eexists. split; [vm_compute; reflexivity|]. split; vm_compute; [discriminate | reflexivity].
  - vm_compute. reflexivity.
Qed.

(** ** Tag references *)

Section TagReference.

Import TagPy.

Variables (str : TagReference -> string) (r : Repo) (self : TagReference).

Lemma commit_loop_commit (o : Object) (fuel : nat) :
  type o = "commit" -> commit_loop str fuel r self o = Some (Return o).
Proof. intros H. destruct fuel; simpl; rewrite H; reflexivity. Qed.

Lemma commit_loop_tag (o o' : Object) (id : string) (fuel : nat) :
  type o = "tag" -> tagged o = Some id -> odb r !! id = Some o' ->
  commit_loop str (S fuel) r self o = commit_loop str fuel r self o'.
Proof.
  intros Ht Hid Ho. simpl. rewrite Ht. simpl.
  unfold Object_object, fetch. now rewrite Hid, Ho.
Qed.

Lemma commit_loop_other (o : Object) (fuel : nat) :
  type o <> "commit" -> type o <> "tag" ->
  commit_loop str (S fuel) r self o =
    Some (Raise (ValueError (cannot_resolve str self (type o)))).
Proof.
  intros Hc Ht. simpl.
  apply String.eqb_neq in Hc, Ht. now rewrite Hc, Ht.
Qed.

(** The loop follows a chain of tag objects to its end, and what it does
    there is what it does when started there. *)
Lemma commit_loop_reaches (o x : Object) :
  reaches r o x ->
  exists n, forall fuel,
    commit_loop str (n + fuel) r self o = commit_loop str fuel r self x.
Proof.
  induction 1 as [o|o o' x id Ht Hid Ho _ [n IH]].
  - now exists 0.
  - exists (S n). intros fuel.
    now rewrite <- IH, <- (commit_loop_tag o o' id).
Qed.

End TagReference.

(** C1: when the object of a tag reference leads, through zero or more tag
    objects, to a commit, [commit] returns that commit (given enough
    iterations of its loop, it does so from then on); a reference on a tag
    on a tag on a commit resolves to the commit. *)
Theorem commit_follows_tags :
  (forall str r self o c,
     TagPy.get_object r self = Return o ->
     reaches r o c ->
     TagPy.type c = "commit" ->
     exists n, forall fuel, n <= fuel ->
       TagPy.commit str fuel r self = Some (Return c))
  /\ TagPy.get_object chained_repo v1 = Return outer_tag
  /\ TagPy.Object_object chained_repo outer_tag = Return inner_tag
  /\ TagPy.Object_object chained_repo inner_tag = Return the_commit
  /\ forall str, TagPy.commit str 2 chained_repo v1 = Some (Return the_commit).
Proof.
  split; [|repeat split; try intros str; vm_compute; reflexivity].
  intros str r self o c Hget Hreach Hc.
  destruct (commit_loop_reaches str r self o c Hreach) as [n Hn].
  exists n. intros fuel Hle. unfold TagPy.commit. rewrite Hget.
  replace fuel with (n + (fuel - n)) by lia.
  rewrite Hn. now apply commit_loop_commit.
Qed.

Lemma commit_follows_tags_witness :
  exists n, forall fuel, n <= fuel ->
    TagPy.commit short_name fuel chained_repo v1 = Some (Return the_commit).
Proof.
  apply (proj1 commit_follows_tags short_name chained_repo v1 outer_tag the_commit).
  - vm_compute. reflexivity.
  - apply (reaches_tag _ outer_tag inner_tag the_commit "7a90");
      [reflexivity | reflexivity | vm_compute; reflexivity |].
    apply (reaches_tag _ inner_tag the_commit the_commit "c0ffee");
      [reflexivity | reflexivity | vm_compute; reflexivity |].
    apply reaches_here.
  - reflexivity.
Defined.

(** C5, as the code has it: when the object of a tag reference leads,
    through zero or more tag objects, to an object that is neither a commit
    nor a tag, [commit] raises a [ValueError] whose message carries the
    printed form of the tag reference, [str(self)], and the kind of that
    object, and points to the [.object] property. *)
Theorem commit_rejects_other_objects :
  forall str r self o x,
    TagPy.get_object r self = Return o ->
    reaches r o x ->
    TagPy.type x <> "commit" ->
    TagPy.type x <> "tag" ->
    exists n, forall fuel, n <= fuel ->
      TagPy.commit str fuel r self =
        Some (Raise (ValueError
          ("Cannot resolve commit as tag " +:+ str self
           +:+ " points to a " +:+ TagPy.type x
           +:+ " object - use the `.object` property instead to access it"))).
Proof.
  intros str r self o x Hget Hreach Hc Ht.
  destruct (commit_loop_reaches str r self o x Hreach) as [n Hn].
  exists (S n). intros fuel Hle. unfold TagPy.commit. rewrite Hget.
  replace fuel with (n + S (fuel - S n)) by lia.
  rewrite Hn. now apply commit_loop_other.
Qed.

Lemma commit_rejects_other_objects_witness :
  exists n, forall fuel, n <= fuel ->
    TagPy.commit short_name fuel tree_repo_a v1 =
      Some (Raise (ValueError
        ("Cannot resolve commit as tag v1 points to a tree"
         +:+ " object - use the `.object` property instead to access it"))).
Proof.
  apply (commit_rejects_other_objects short_name tree_repo_a v1 tree_a tree_a).
  - vm_compute. reflexivity.
  - apply reaches_here.
  - discriminate.
  - discriminate.
Defined.

(** C5 as stated fails: the error does not carry the identifier of the
    offending object. Two trees with different identifiers under the same
    tag reference raise the same error, however a reference is printed; with
    the reference printed as [v1] neither identifier is in the message. *)
Lemma commit_error_without_object_id :
  TagPy.get_object tree_repo_a v1 = Return tree_a
  /\ TagPy.get_object tree_repo_b v1 = Return tree_b
  /\ TagPy.hexsha tree_a <> TagPy.hexsha tree_b
  /\ (forall str,
        TagPy.commit str 1 tree_repo_a v1 = TagPy.commit str 1 tree_repo_b v1)
  /\ TagPy.commit short_name 1 tree_repo_a v1
     = Some (Raise (ValueError
         ("Cannot resolve commit as tag v1 points to a tree"
          +:+ " object - use the `.object` property instead to access it")))
  /\ TagPy.commit short_name 1 tree_repo_b v1
     = Some (Raise (ValueError
         ("Cannot resolve commit as tag v1 points to a tree"
          +:+ " object - use the `.object` property instead to access it"))).
Proof.
  split; [vm_compute; reflexivity|]. split; [vm_compute; reflexivity|].
  split; [discriminate|]. split; [intros str; vm_compute; reflexivity|].
  split; vm_compute; reflexivity.
Qed.

(** C6: [tag] returns the object the reference points to, itself, when it is
    a tag object, and [None] (no error) when it is of any other kind. *)
Theorem tag_accessor :
  forall r self o,
    TagPy.get_object r self = Return o ->
    (TagPy.type o = "tag" -> TagPy.tag r self = Return (Some o))
    /\ (TagPy.type o <> "tag" -> TagPy.tag r self = Return None).
Proof.
  intros r self o Hget. unfold TagPy.tag. rewrite Hget. simpl. split; intros H.
  - now rewrite H.
  - apply String.eqb_neq in H. now rewrite H.
Qed.

Lemma tag_accessor_witness :
  TagPy.tag chained_repo v1 = Return (Some outer_tag)
  /\ TagPy.tag light_repo v1 = Return None.
Proof.
  split.
  - apply (tag_accessor chained_repo v1 outer_tag); [vm_compute|]; reflexivity.
  - apply (tag_accessor light_repo v1 the_commit); [vm_compute; reflexivity|].
    discriminate.
Defined.

(** C10: on a tag reference [object] is read-only: reading it is the getter
    of the base reference, and assigning to it raises an [AttributeError]
    and leaves the repository, and so the target of the reference, as it
    was. *)
Theorem object_read_only :
  forall r self value,
    TagPy.get_object r self = TagPy.Reference_get_object r self
    /\ TagPy.set_object r self value
       = (Raise (AttributeError "can't set attribute"), r)
    /\ TagPy.get_object (snd (TagPy.set_object r self value)) self
       = TagPy.get_object r self.
Proof.
  intros r self value.
  assert (Hobj : TagPy.lookup_mro TagPy.TagReference_mro "object" = Some TagPy.object)
    by (vm_compute; reflexivity).
  unfold TagPy.get_object, TagPy.set_object, TagPy.getattr, TagPy.setattr.
  rewrite Hobj. repeat split.
Qed.

(** The attribute that [TagReference] shadows can be assigned on the base
    class, where it changes what the reference points to. *)
Lemma Reference_object_assignable (r : TagPy.Repo) (self : TagPy.TagReference)
      (value : TagPy.Object) :
  TagPy.setattr TagPy.Reference_mro r self "object" value
  = (Return tt,
     TagPy.mkRepo (<[TagPy.path self := TagPy.hexsha value]> (TagPy.refs r))
       (TagPy.odb r)).
Proof.
  assert (Hobj : TagPy.lookup_mro TagPy.Reference_mro "object"
                 = Some (TagPy.mkProperty (Some TagPy.Reference_get_object)
                           (Some TagPy.Reference_set_object)))
    by (vm_compute; reflexivity).
  unfold TagPy.setattr. rewrite Hobj. reflexivity.
Qed.


(** ** Creating and deleting tags *)

Section Push.

Import TagPy.

Variable backend : Backend.

Lemma git_ok (cmd : GitCmd) (log : list GitCmd) :
  backend log cmd = None -> git backend cmd log = (Return tt, log ++ [cmd]).
Proof. intros H. unfold git. now rewrite H. Qed.

Lemma git_failed (cmd : GitCmd) (log : list GitCmd) (status : Z) :
  backend log cmd = Some status ->
  git backend cmd log = (Raise (GitCommandError status), log ++ [cmd]).
Proof. intros H. unfold git. now rewrite H. Qed.

Variable kwargs : gmap string kwvalue.

Lemma delete_push_cons (tag : string) (more : list string) (log : list GitCmd) :
  delete_push backend (<["d" := KTrue]> kwargs) (tag :: more) log =
    match git backend (push_delete_cmd kwargs tag) log with
    | (Raise (GitCommandError _), log') => (Return (Some false), log')
    | (Raise e, log') => (Raise e, log')
    | (Return _, log') => delete_push backend (<["d" := KTrue]> kwargs) more log'
    end.
Proof. reflexivity. Qed.

Lemma delete_push_stops (pre : list string) :
  forall log tag post status,
    (forall i t, pre !! i = Some t ->
       backend (log ++ map (push_delete_cmd kwargs) (take i pre))
         (push_delete_cmd kwargs t) = None) ->
    backend (log ++ map (push_delete_cmd kwargs) pre) (push_delete_cmd kwargs tag)
      = Some status ->
    delete_push backend (<["d" := KTrue]> kwargs) (pre ++ tag :: post) log
      = (Return (Some false), log ++ map (push_delete_cmd kwargs) (pre ++ [tag])).
Proof.
  induction pre as [|a pre IH]; intros log tag post status Hpre Hfail.
  - simpl in Hfail. rewrite app_nil_r in Hfail.
    change ([] ++ tag :: post) with (tag :: post).
    now rewrite delete_push_cons, (git_failed _ _ _ Hfail).
  - pose proof (Hpre 0 a eq_refl) as H0. simpl in H0. rewrite app_nil_r in H0.
    change ((a :: pre) ++ tag :: post) with (a :: (pre ++ tag :: post)).
    rewrite delete_push_cons, (git_ok _ _ H0).
    rewrite (IH (log ++ [push_delete_cmd kwargs a]) tag post status).
    + now rewrite <- app_assoc.
    + intros i t Hi. rewrite <- app_assoc. exact (Hpre (S i) t Hi).
    + rewrite <- app_assoc. exact Hfail.
Qed.

Lemma delete_push_all (tags : list string) :
  forall log,
    (forall i t, tags !! i = Some t ->
       backend (log ++ map (push_delete_cmd kwargs) (take i tags))
         (push_delete_cmd kwargs t) = None) ->
    delete_push backend (<["d" := KTrue]> kwargs) tags log
      = (Return None, log ++ map (push_delete_cmd kwargs) tags).
Proof.
  induction tags as [|a tags IH]; intros log Hall.
  - simpl. now rewrite app_nil_r.
  - pose proof (Hall 0 a eq_refl) as H0. simpl in H0. rewrite app_nil_r in H0.
    rewrite delete_push_cons, (git_ok _ _ H0).
    rewrite (IH (log ++ [push_delete_cmd kwargs a])).
    + now rewrite <- app_assoc.
    + intros i t Hi. rewrite <- app_assoc. exact (Hall (S i) t Hi).
Qed.

Lemma ran_app (log : list GitCmd) (tags pushed : list string) :
  ran log kwargs tags pushed
  = (log ++ [delete_cmd tags]) ++ map (push_delete_cmd kwargs) pushed.
Proof. unfold ran. now rewrite <- app_assoc. Qed.

End Push.

(** C9: [delete] with [push] first deletes all tags locally in one [git tag
    -d]; then it pushes the deletions one tag at a time, and at the first
    push that fails, whatever the status, it returns [False] with the
    remaining tags not pushed; when every push succeeds it returns [None]. *)
Theorem delete_pushes_until_failure :
  forall (backend : TagPy.Backend) (tags : list string)
         (kwargs : gmap string TagPy.kwvalue) (log : list TagPy.GitCmd),
    backend log (delete_cmd tags) = None ->
    (forall pre tag post status,
       tags = pre ++ tag :: post ->
       (forall i t, pre !! i = Some t ->
          backend (ran log kwargs tags (take i pre)) (push_delete_cmd kwargs t) = None) ->
       backend (ran log kwargs tags pre) (push_delete_cmd kwargs tag) = Some status ->
       TagPy.delete backend true tags kwargs log
       = (Return (Some false), ran log kwargs tags (pre ++ [tag])))
    /\ ((forall i t, tags !! i = Some t ->
           backend (ran log kwargs tags (take i tags)) (push_delete_cmd kwargs t) = None) ->
        TagPy.delete backend true tags kwargs log
        = (Return None, ran log kwargs tags tags)).
Proof.
  intros backend tags kwargs log Hdel. split.
  - intros pre tag post status Htags Hpre Hfail. subst tags.
    unfold TagPy.delete. fold (delete_cmd (pre ++ tag :: post)).
    rewrite (git_ok _ _ _ Hdel), ran_app.
    apply delete_push_stops with (status := status).
    + intros i t Hi. rewrite <- ran_app. now apply Hpre.
    + now rewrite <- ran_app.
  - intros Hall.
    unfold TagPy.delete. fold (delete_cmd tags). rewrite (git_ok _ _ _ Hdel).
    rewrite ran_app. apply delete_push_all.
    intros i t Hi. rewrite <- ran_app. now apply Hall.
Qed.

Lemma delete_pushes_until_failure_witness :
  TagPy.delete (push_of_fails "b" 1) true ["a"; "b"; "c"] ∅ []
  = (Return (Some false), ran [] ∅ ["a"; "b"; "c"] ["a"; "b"])
  /\ TagPy.delete (push_fails 1) true [] ∅ [] = (Return None, ran [] ∅ [] []).
Proof.
  split.
  - apply (proj1 (delete_pushes_until_failure (push_of_fails "b" 1)
                    ["a"; "b"; "c"] ∅ [] eq_refl) ["a"] "b" ["c"] 1%Z).
    + reflexivity.
    + intros [|i] t Hi; [|destruct i; discriminate].
      simpl in Hi. injection Hi as <-. reflexivity.
    + reflexivity.
  - apply (proj2 (delete_pushes_until_failure (push_fails 1) [] ∅ [] eq_refl)).
    intros i t Hi. destruct i; discriminate.
Defined.

(** C7 against the code: with [push] set, a push that fails with a status
    other than 1 is not raised; [create] returns [False] for status 128 as
    it does for status 1. *)
Theorem create_push_failure_not_raised :
  TagPy.create (push_fails 128) "v1" true "HEAD" None false ∅ []
  = (Return TagPy.CFalse,
     [TagPy.Git "tag" ["v1"; "HEAD"] ∅; TagPy.Git "push" ["origin"; "v1"] ∅])
  /\ fst (TagPy.create (push_fails 1) "v1" true "HEAD" None false ∅ [])
     = Return TagPy.CFalse
  /\ forall status tag ref message force kwargs log,
       fst (TagPy.create (push_fails status) tag true ref message force kwargs log)
       = Return TagPy.CFalse.
Proof.
  split; [vm_compute; reflexivity|]. split; [vm_compute; reflexivity|].
  intros status tag ref message force kwargs log.
  unfold TagPy.create, TagPy.git, push_fails. reflexivity.
Qed.

(** * Further properties of the code *)

(** ** Every match [run] finds is a match *)

Section Matches.

Implicit Types (r : regex) (st : mstate) (k : mstate -> option mstate).

Lemma span_refl st : span st "" st.
Proof. unfold span. simpl. repeat split; lia. Qed.

Lemma span_trans st w1 st1 w2 st2 :
  span st w1 st1 -> span st1 w2 st2 -> span st (w1 +:+ w2) st2.
Proof.
  intros (R1 & P1 & C1) (R2 & P2 & C2). unfold span.
  rewrite R1, R2, append_assoc3, length_append. repeat split; [lia | congruence].
Qed.

Lemma lit_span (s : string) : forall st st', lit s st = Some st' -> span st s st'.
Proof.
  induction s as [|c s IH]; intros st st' H; simpl in H.
  - inversion H; subst. apply span_refl.
  - destruct (rest st) as [|d t] eqn:E; [discriminate|].
    destruct (Ascii.eqb_spec c d) as [->|]; [|discriminate].
    apply IH in H. destruct H as (R & P & C). unfold span. simpl in *.
    rewrite E, R. repeat split; [lia | assumption].
Qed.

Lemma star_span (p : ascii -> bool) (s : string) :
  forall n pv cs k R,
    star p s n pv cs k = Some R ->
    exists w st', s = w +:+ rest st' /\ pos st' = n + String.length w
      /\ caps st' = cs /\ all_chars p w = true /\ k st' = Some R.
Proof.
  induction s as [|c s IH]; intros n pv cs k R H; simpl in H.
  - exists "", (MState n pv "" cs). simpl. repeat split; [lia | assumption].
  - assert (Hstop : k (MState n pv (String c s) cs) = Some R ->
              exists w st', String c s = w +:+ rest st'
                /\ pos st' = n + String.length w
                /\ caps st' = cs /\ all_chars p w = true /\ k st' = Some R).
    { intros Hk. exists "", (MState n pv (String c s) cs). simpl.
      repeat split; [lia | assumption]. }
    destruct (p c) eqn:Hp; [|auto].
    destruct (star p s (S n) (Some c) cs k) as [R'|] eqn:E; [|auto].
    inversion H; subst R'. apply IH in E.
    destruct E as (w & st' & Hs & Hpos & Hc & Hall & Hk).
    exists (String c w), st'. simpl. rewrite Hp, Hall, Hs.
    repeat split; [lia | assumption | assumption].
Qed.

Lemma run_matches r :
  forall st k R,
    run r st k = Some R -> exists st', matches r st st' /\ k st' = Some R.
Proof.
  induction r as [s|p|p| | |r1 IH1 r2 IH2|r1 IH1 r2 IH2|r IH|g r IH];
    intros st k R H; simpl in H.
  - destruct (lit s st) as [st'|] eqn:E; [|discriminate].
    exists st'. split; [|assumption]. constructor. now apply lit_span.
  - destruct (rest st) as [|c t] eqn:E; [discriminate|].
    destruct (p c) eqn:Hp; [|discriminate].
    exists (advance c t st). split; [|assumption].
    apply (matches_Cls p c); [assumption|]. unfold span. simpl.
    rewrite E. repeat split; lia.
  - unfold plus in H. destruct (rest st) as [|c t] eqn:E; [discriminate|].
    destruct (p c) eqn:Hp; [|discriminate].
    apply star_span in H. destruct H as (w & st' & Hs & Hpos & Hc & Hall & Hk).
    exists st'. split; [|assumption].
    apply (matches_Plus p (String c w)); [discriminate | simpl; now rewrite Hp|].
    unfold span. simpl. rewrite E, Hs. repeat split; [lia | assumption].
  - destruct (at_bol st) eqn:E; [|discriminate]. exists st. split; [now constructor | assumption].
  - destruct (at_eol st) eqn:E; [|discriminate]. exists st. split; [now constructor | assumption].
  - apply IH1 in H. destruct H as (st1 & M1 & H).
    apply IH2 in H. destruct H as (st2 & M2 & H).
    exists st2. split; [econstructor; eassumption | assumption].
  - destruct (run r1 st k) as [R1|] eqn:E.
    + inversion H; subst R1. apply IH1 in E. destruct E as (st' & M & Hk).
      exists st'. split; [now apply matches_Alt_l | assumption].
    + apply IH2 in H. destruct H as (st' & M & Hk).
      exists st'. split; [now apply matches_Alt_r | assumption].
  - destruct (run r st k) as [R1|] eqn:E.
    + inversion H; subst R1. apply IH in E. destruct E as (st' & M & Hk).
      exists st'. split; [now apply matches_Opt_some | assumption].
    + exists st. split; [apply matches_Opt_none | assumption].
  - apply IH in H. destruct H as (st' & M & Hk).
    eexists. split; [apply matches_Grp; eassumption | assumption].
Qed.

End Matches.

(** ** What every match has *)

Section MatchInvariants.

Implicit Types (r : regex) (st : mstate).

Lemma has_char_append (c : ascii) (a b : string) :
  has_char c (a +:+ b) = has_char c a || has_char c b.
Proof.
  induction a as [|d a IH]; simpl; [reflexivity|].
  now rewrite IH, orb_assoc.
Qed.

Lemma class_only_lf_char (p : ascii -> bool) (c : ascii) :
  class_only_lf p = true -> p c = true -> c = LF.
Proof.
  intros H Hp. unfold class_only_lf in H. rewrite forallb_forall in H.
  assert (Hin : In c all_ascii).
  { unfold all_ascii. rewrite <- (ascii_nat_embedding c).
    apply in_map, in_seq. pose proof (nat_ascii_bounded c). lia. }
  apply H in Hin. rewrite Hp in Hin. simpl in Hin.
  now apply Ascii.eqb_eq.
Qed.

(** A match reads a piece of the subject, with a line feed in it where the
    pattern asks for one. *)
Lemma matches_span r st st' :
  matches r st st' ->
  exists w, rest st = w +:+ rest st'
    /\ pos st' = pos st + String.length w
    /\ (reads_lf r = true -> has_char LF w = true).
Proof.
  induction 1 as [s st st' (R & P & _)|p c st st' Hp (R & P & _)
                  |p w st st' _ _ (R & P & _)|st _|st _
                  |r1 r2 st st1 st2 _ (w1 & R1 & P1 & L1) _ (w2 & R2 & P2 & L2)
                  |r1 r2 st st' _ (w & R & P & L)|r1 r2 st st' _ (w & R & P & L)
                  |r st st' _ (w & R & P & L)|r st
                  |g r st st' _ (w & R & P & L)].
  - exists s. repeat split; auto. discriminate.
  - exists (String c ""). repeat split; auto. simpl. intros Hlf.
    rewrite (class_only_lf_char p c Hlf Hp). now rewrite Ascii.eqb_refl.
  - exists w. repeat split; auto. discriminate.
  - exists "". simpl. repeat split; [lia | discriminate].
  - exists "". simpl. repeat split; [lia | discriminate].
  - exists (w1 +:+ w2). rewrite R1, R2, append_assoc3, length_append.
    repeat split; [lia|]. simpl. intros Hlf. rewrite has_char_append.
    apply orb_true_iff in Hlf. apply orb_true_iff. tauto.
  - exists w. repeat split; auto. simpl. intros Hlf.
    apply andb_true_iff in Hlf. tauto.
  - exists w. repeat split; auto. simpl. intros Hlf.
    apply andb_true_iff in Hlf. tauto.
  - exists w. repeat split; auto. discriminate.
  - exists "". simpl. repeat split; [lia | discriminate].
  - exists w. simpl. repeat split; auto.
Qed.

Lemma mem_In (g : string) (D : list string) : mem g D = true <-> In g D.
Proof.
  unfold mem. rewrite existsb_exists. split.
  - intros (x & Hin & Heq). apply String.eqb_eq in Heq. now subst.
  - intros Hin. exists g. split; [assumption | apply String.eqb_refl].
Qed.

(** The groups set by a match are those set before and one of the sets the
    pattern allows. *)
Lemma matches_domain r st st' :
  matches r st st' ->
  exists D, In D (domains r)
    /\ forall g, is_Some (caps st' !! g) <-> is_Some (caps st !! g) \/ In g D.
Proof.
  induction 1 as [s st st' (_ & _ & C)|p c st st' _ (_ & _ & C)
                  |p w st st' _ _ (_ & _ & C)|st _|st _
                  |r1 r2 st st1 st2 _ (D1 & I1 & H1) _ (D2 & I2 & H2)
                  |r1 r2 st st' _ (D & I & H)|r1 r2 st st' _ (D & I & H)
                  |r st st' _ (D & I & H)|r st
                  |g r st st' _ (D & I & H)];
    try (exists []; split; [now left|]; intros g; rewrite ?C; simpl; tauto).
  - exists (D1 ++ D2). split.
    + simpl. apply in_flat_map. exists D1. split; [assumption|]. now apply in_map.
    + intros g. rewrite H2, H1, in_app_iff. tauto.
  - exists D. split; [simpl; apply in_app_iff; now left | assumption].
  - exists D. split; [simpl; apply in_app_iff; now right | assumption].
  - exists D. split; [simpl; apply in_app_iff; now left | assumption].
  - exists []. split; [simpl; apply in_app_iff; right; now left|].
    intros g. simpl. tauto.
  - exists (g :: D). split; [simpl; now apply in_map|].
    intros g'. simpl. destruct (decide (g = g')) as [->|Hne].
    + rewrite lookup_insert_eq. split; [auto | eauto].
    + rewrite lookup_insert_ne by assumption. rewrite H. tauto.
Qed.

Lemma substring_append (w t : string) :
  substring 0 (String.length w) (w +:+ t) = w.
Proof.
  induction w as [|c w IH]; simpl; [now destruct t | now rewrite IH].
Qed.

(** A group that repeats a class holds characters of that class only. *)
Lemma matches_classes r st st' :
  plus_groups_only r = true ->
  matches r st st' ->
  forall g v, caps st' !! g = Some v ->
    caps st !! g = Some v
    \/ exists p, In (g, p) (plus_groups r) /\ all_chars p v = true.
Proof.
  intros Hwf M. revert Hwf.
  induction M as [s st st' (_ & _ & C)|p c st st' _ (_ & _ & C)
                  |p w st st' _ _ (_ & _ & C)|st _|st _
                  |r1 r2 st st1 st2 _ IH1 _ IH2
                  |r1 r2 st st' _ IH|r1 r2 st st' _ IH
                  |r st st' _ IH|r st
                  |g r st st' M IH];
    intros Hwf g' v Hv; try (left; congruence); simpl in Hwf.
  - apply andb_true_iff in Hwf. destruct Hwf as [W1 W2].
    destruct (IH2 W2 g' v Hv) as [Hv1|(p & Hin & Hall)].
    + destruct (IH1 W1 g' v Hv1) as [Hv0|(p & Hin & Hall)]; [now left|].
      right. exists p. split; [simpl; apply in_app_iff; now left | assumption].
    + right. exists p. split; [simpl; apply in_app_iff; now right | assumption].
  - apply andb_true_iff in Hwf. destruct Hwf as [W1 W2].
    destruct (IH W1 g' v Hv) as [Hv0|(p & Hin & Hall)]; [now left|].
    right. exists p. split; [simpl; apply in_app_iff; now left | assumption].
  - apply andb_true_iff in Hwf. destruct Hwf as [W1 W2].
    destruct (IH W2 g' v Hv) as [Hv0|(p & Hin & Hall)]; [now left|].
    right. exists p. split; [simpl; apply in_app_iff; now right | assumption].
  - destruct (IH Hwf g' v Hv) as [Hv0|(p & Hin & Hall)]; [now left|].
    right. exists p. split; assumption.
  - destruct r; try discriminate. clear IH.
    inversion M as [| |p' w st0 st0' Hne Hall (R & P & C)| | | | | | | |]; subst.
    simpl in Hv. destruct (decide (g = g')) as [->|Hne'].
    + rewrite lookup_insert_eq in Hv. right. exists p. split; [now left|].
      injection Hv as <-. rewrite R, P.
      replace (pos st + String.length w - pos st) with (String.length w) by lia.
      now rewrite substring_append.
    + rewrite lookup_insert_ne in Hv by assumption. left. congruence.
Qed.

End MatchInvariants.

(** ** The header of a segment and the record made of it *)

Section HeaderFacts.

Variables (seg : string) (header : mstate).
Hypothesis Hheader : diff_header seg = Some header.

Lemma diff_header_matches : matches diff_header_re (MState 0 None seg ∅) header.
Proof.
  unfold diff_header, match_ in Hheader. apply run_matches in Hheader.
  destruct Hheader as (st' & M & E). now inversion E; subst.
Qed.

(** The header is the first [end_ header] characters of the segment, its
    first line included. *)
Lemma header_span :
  exists head, seg = head +:+ rest header
    /\ end_ header = String.length head
    /\ has_char LF head = true.
Proof.
  destruct (matches_span _ _ _ diff_header_matches) as (w & R & P & L).
  exists w. simpl in R, P. repeat split; [assumption | assumption|].
  apply L. vm_compute. reflexivity.
Qed.

(** Which groups the header has is one of the combinations the pattern
    allows. *)
Lemma header_domain :
  exists D, In D (domains diff_header_re)
    /\ forall g, is_Some (group header g) <-> mem g D = true.
Proof.
  destruct (matches_domain _ _ _ diff_header_matches) as (D & I & H).
  exists D. split; [assumption|]. intros g. unfold group. rewrite H, mem_In.
  simpl. rewrite lookup_empty. split; [intros [[x Hx]|]; [discriminate | assumption] | auto].
Qed.

(** A fact about the groups that holds of each combination holds of the
    header. *)
Lemma header_domain_all (P : list string -> bool) :
  forallb P (domains diff_header_re) = true ->
  exists D, P D = true /\ forall g, is_Some (group header g) <-> mem g D = true.
Proof.
  intros H. destruct header_domain as (D & I & HD). exists D.
  split; [|assumption]. rewrite forallb_forall in H. now apply H.
Qed.

Lemma header_class (g v : string) :
  group header g = Some v ->
  exists p, In (g, p) (plus_groups diff_header_re) /\ all_chars p v = true.
Proof.
  intros Hv.
  assert (W : plus_groups_only diff_header_re = true) by reflexivity.
  destruct (matches_classes _ _ _ W diff_header_matches g v Hv)
    as [H|H]; [|assumption].
  simpl in H. rewrite lookup_empty in H. discriminate.
Qed.

End HeaderFacts.

Lemma drop_str_append (w t : string) : drop_str (String.length w) (w +:+ t) = t.
Proof. induction w as [|c w IH]; simpl; [now destruct t | assumption]. Qed.

(** The class of each group of the pattern. *)
Ltac group_class H :=
  simpl in H;
  repeat (destruct H as [H|H]; [now inversion H|]);
  try contradiction.

Lemma path_class (g : string) (p : ascii -> bool) :
  g = "a_path" \/ g = "b_path" ->
  In (g, p) (plus_groups diff_header_re) -> p = non_space.
Proof. intros [->| ->] H; group_class H. Qed.

Lemma hash_class (g : string) (p : ascii -> bool) :
  g = "a_commit" \/ g = "b_commit" ->
  In (g, p) (plus_groups diff_header_re) -> p = hexdigit.
Proof. intros [->| ->] H; group_class H. Qed.

Lemma mode_class (g : string) (p : ascii -> bool) :
  g = "old_mode" \/ g = "new_mode" ->
  In (g, p) (plus_groups diff_header_re) -> p = digit.
Proof. intros [->| ->] H; group_class H. Qed.

(** ** The records of a parse *)

Lemma parse_records (text : string) (ds : list Diff) :
  list_from_string text = Return ds ->
  Forall2 (fun seg d =>
             exists header, diff_header seg = Some header
                            /\ loop_body seg = Return d)
          (segments text) ds.
Proof.
  intros H. apply loop_Return in H.
  eapply Forall2_impl; [exact H|]. intros seg d Hd. cbv beta in Hd.
  destruct (loop_body_Return _ _ Hd) as [header Hh]. eauto.
Qed.

Lemma Forall2_Forall_r {A B} (P : A -> B -> Prop) (Q : B -> Prop) l k :
  Forall2 P l k -> (forall x y, P x y -> Q y) -> Forall Q k.
Proof. induction 1; intros HPQ; constructor; eauto. Qed.

Lemma record_of_header (seg : string) (header : mstate) (d : Diff) :
  diff_header seg = Some header -> loop_body seg = Return d ->
  a_path d = group header "a_path" /\ b_path d = group header "b_path"
  /\ a_commit d = group header "a_commit" /\ b_commit d = group header "b_commit"
  /\ diff d = rest header.
Proof.
  intros Hh Hd. rewrite (loop_body_Some _ _ Hh) in Hd. injection Hd as <-. simpl.
  repeat split.
  destruct (header_span _ _ Hh) as (head & Hseg & Hend & _).
  rewrite Hend. rewrite Hseg at 1. apply drop_str_append.
Qed.

(** X1: the body of a record is what the header left of its segment: the
    segment is the text the header matched, as long as the offset where the
    match ends and holding the first line, followed by the body. *)
Theorem record_body_completes_segment :
  forall text ds,
    list_from_string text = Return ds ->
    Forall2 (fun seg d =>
               exists header head,
                 diff_header seg = Some header
                 /\ seg = head +:+ diff d
                 /\ String.length head = end_ header
                 /\ has_char LF head = true)
            (segments text) ds.
Proof.
  intros text ds H. apply parse_records in H.
  eapply Forall2_impl; [exact H|]. intros seg d (header & Hh & Hd).
  destruct (record_of_header _ _ _ Hh Hd) as (_ & _ & _ & _ & Hbody).
  destruct (header_span _ _ Hh) as (head & Hseg & Hend & Hlf).
  exists header, head. rewrite Hbody. auto.
Qed.

Lemma record_body_completes_segment_witness :
  Forall2 (fun seg d =>
             exists header head,
               diff_header seg = Some header
               /\ seg = head +:+ diff d
               /\ String.length head = end_ header
               /\ has_char LF head = true)
          (segments example_with_hunk) [example_record example_hunk].
Proof.
  apply (record_body_completes_segment example_with_hunk). vm_compute. reflexivity.
Defined.

(** X2: no body of a record holds a line feed followed by [diff --git]. *)
Theorem record_body_without_marker_line :
  forall text ds,
    list_from_string text = Return ds ->
    Forall (fun d => occurrences separator (diff d) = 0) ds.
Proof.
  intros text ds H. apply parse_records in H.
  destruct (segments_join text) as (before & _ & Hocc).
  apply Forall_cons in Hocc. destruct Hocc as [_ Hocc].
  induction H as [|seg d l ds' (header & Hh & Hd) _ IH]; constructor.
  - apply Forall_cons in Hocc. destruct Hocc as [Hseg _].
    destruct (record_of_header _ _ _ Hh Hd) as (_ & _ & _ & _ & Hbody).
    destruct (header_span _ _ Hh) as (head & Hs & _ & _).
    pose proof (occurrences_append separator head (rest header)) as Hle.
    rewrite <- Hs, Hseg in Hle. rewrite Hbody. lia.
  - apply IH. apply Forall_cons in Hocc. tauto.
Qed.

Lemma record_body_without_marker_line_witness :
  Forall (fun d => occurrences separator (diff d) = 0) [example_record ""].
Proof.
  apply (record_body_without_marker_line example_text). vm_compute. reflexivity.
Defined.

(** X3: every record has both paths, and neither is empty or holds a
    white-space character. *)
Theorem record_paths :
  forall text ds,
    list_from_string text = Return ds ->
    Forall (fun d =>
              exists p q, a_path d = Some p /\ b_path d = Some q
                /\ p <> "" /\ q <> ""
                /\ all_chars non_space p = true /\ all_chars non_space q = true)
           ds.
Proof.
  intros text ds H. apply parse_records in H.
  eapply Forall2_Forall_r; [exact H|]. intros seg d (header & Hh & Hd).
  destruct (record_of_header _ _ _ Hh Hd) as (Ha & Hb & _).
  destruct (header_domain_all _ _ Hh (fun D => mem "a_path" D && mem "b_path" D))
    as (D & HD & Hdom); [vm_compute; reflexivity|].
  apply andb_true_iff in HD. destruct HD as [Da Db].
  apply Hdom in Da, Db. destruct Da as [p Hp], Db as [q Hq].
  exists p, q. rewrite Ha, Hb.
  destruct (header_class _ _ Hh _ _ Hp) as (cp & Icp & Hcp).
  destruct (header_class _ _ Hh _ _ Hq) as (cq & Icq & Hcq).
  apply path_class in Icp, Icq; auto. subst cp cq.
  repeat split; auto; eapply group_nonempty; eauto.
Qed.

Lemma record_paths_witness :
  Forall (fun d =>
            exists p q, a_path d = Some p /\ b_path d = Some q
              /\ p <> "" /\ q <> ""
              /\ all_chars non_space p = true /\ all_chars non_space q = true)
         [example_record ""].
Proof. apply (record_paths example_text). vm_compute. reflexivity. Defined.

(** X4: a record has both blob hashes or neither, and a hash is a
    non-empty string of hexadecimal digits. *)
Theorem record_hashes :
  forall text ds,
    list_from_string text = Return ds ->
    Forall (fun d =>
              (a_commit d = None /\ b_commit d = None)
              \/ exists a b, a_commit d = Some a /\ b_commit d = Some b
                   /\ a <> "" /\ b <> ""
                   /\ all_chars hexdigit a = true /\ all_chars hexdigit b = true)
           ds.
Proof.
  intros text ds H. apply parse_records in H.
  eapply Forall2_Forall_r; [exact H|]. intros seg d (header & Hh & Hd).
  destruct (record_of_header _ _ _ Hh Hd) as (_ & _ & Ha & Hb & _).
  destruct (header_domain_all _ _ Hh
              (fun D => Bool.eqb (mem "a_commit" D) (mem "b_commit" D)))
    as (D & HD & Hdom); [vm_compute; reflexivity|].
  apply Bool.eqb_prop in HD. rewrite Ha, Hb.
  destruct (group header "a_commit") as [a|] eqn:Ea,
           (group header "b_commit") as [b|] eqn:Eb.
  - right. exists a, b.
    destruct (header_class _ _ Hh _ _ Ea) as (ca & Ica & Hca).
    destruct (header_class _ _ Hh _ _ Eb) as (cb & Icb & Hcb).
    apply hash_class in Ica, Icb; auto. subst ca cb.
    repeat split; auto; eapply group_nonempty; eauto.
  - exfalso. assert (Hs : is_Some (group header "a_commit")) by (rewrite Ea; eauto).
    apply Hdom in Hs. rewrite HD in Hs. apply Hdom in Hs.
    rewrite Eb in Hs. destruct Hs; discriminate.
  - exfalso. assert (Hs : is_Some (group header "b_commit")) by (rewrite Eb; eauto).
    apply Hdom in Hs. rewrite <- HD in Hs. apply Hdom in Hs.
    rewrite Ea in Hs. destruct Hs; discriminate.
  - now left.
Qed.

Lemma record_hashes_witness :
  Forall (fun d =>
            (a_commit d = None /\ b_commit d = None)
            \/ exists a b, a_commit d = Some a /\ b_commit d = Some b
                 /\ a <> "" /\ b <> ""
                 /\ all_chars hexdigit a = true /\ all_chars hexdigit b = true)
         [example_record ""].
Proof. apply (record_hashes example_text). vm_compute. reflexivity. Defined.

(** X5: the groups of a header come in the blocks of the pattern: the
    similarity index and the two rename paths all three or none, the old and
    the new mode both or none, the two hashes both or none, and the mode of
    the index line only with the hashes. *)
Theorem header_blocks :
  forall seg header,
    diff_header seg = Some header ->
    (is_Some (group header "similarity_index") <-> is_Some (group header "rename_from"))
    /\ (is_Some (group header "rename_from") <-> is_Some (group header "rename_to"))
    /\ (is_Some (group header "old_mode") <-> is_Some (group header "new_mode"))
    /\ (is_Some (group header "a_commit") <-> is_Some (group header "b_commit"))
    /\ (is_Some (group header "b_mode") -> is_Some (group header "a_commit")).
Proof.
  intros seg header Hh.
  destruct (header_domain_all _ _ Hh
              (fun D => Bool.eqb (mem "similarity_index" D) (mem "rename_from" D)
                        && Bool.eqb (mem "rename_from" D) (mem "rename_to" D)
                        && Bool.eqb (mem "old_mode" D) (mem "new_mode" D)
                        && Bool.eqb (mem "a_commit" D) (mem "b_commit" D)
                        && implb (mem "b_mode" D) (mem "a_commit" D)))
    as (D & HD & Hdom); [vm_compute; reflexivity|].
  repeat (apply andb_true_iff in HD; destruct HD as [HD ?]).
  repeat match goal with E : Bool.eqb _ _ = true |- _ => apply Bool.eqb_prop in E end.
  rewrite (Hdom "similarity_index"), (Hdom "rename_from"), (Hdom "rename_to"),
    (Hdom "old_mode"), (Hdom "new_mode"), (Hdom "a_commit"), (Hdom "b_commit"),
    (Hdom "b_mode").
  repeat split; try congruence.
  intros Hb. rewrite Hb in *. assumption.
Qed.

Lemma header_blocks_witness :
  exists header,
    diff_header mode_change_segment = Some header
    /\ (is_Some (group header "similarity_index") <-> is_Some (group header "rename_from"))
    /\ (is_Some (group header "rename_from") <-> is_Some (group header "rename_to"))
    /\ (is_Some (group header "old_mode") <-> is_Some (group header "new_mode"))
    /\ (is_Some (group header "a_commit") <-> is_Some (group header "b_commit"))
    /\ (is_Some (group header "b_mode") -> is_Some (group header "a_commit")).
Proof.
  eexists. split; [vm_compute; reflexivity|].
  apply (header_blocks mode_change_segment). vm_compute. reflexivity.
Defined.

(** X6: when the header has an old mode, the record's [a_mode] is that old
    mode and its [b_mode] the new mode of the same block, both non-empty
    strings of decimal digits. *)
Theorem record_mode_change :
  forall seg header,
    diff_header seg = Some header ->
    is_Some (group header "old_mode") ->
    exists d m m',
      loop_body seg = Return d
      /\ group header "old_mode" = Some m /\ group header "new_mode" = Some m'
      /\ a_mode d = Some m /\ b_mode d = Some m'
      /\ m <> "" /\ m' <> ""
      /\ all_chars digit m = true /\ all_chars digit m' = true.
Proof.
  intros seg header Hh [m Hm].
  destruct (header_domain_all _ _ Hh
              (fun D => Bool.eqb (mem "old_mode" D) (mem "new_mode" D)))
    as (D & HD & Hdom); [vm_compute; reflexivity|].
  apply Bool.eqb_prop in HD.
  assert (Hn : is_Some (group header "new_mode")).
  { apply Hdom. rewrite <- HD. apply Hdom. eauto. }
  destruct Hn as [m' Hm'].
  pose proof (group_nonempty _ _ _ _ Hh Hm) as Nm.
  pose proof (group_nonempty _ _ _ _ Hh Hm') as Nm'.
  destruct (header_class _ _ Hh _ _ Hm) as (c & Ic & Hc).
  destruct (header_class _ _ Hh _ _ Hm') as (c' & Ic' & Hc').
  apply mode_class in Ic, Ic'; auto. subst c c'.
  eexists. exists m, m'. split; [apply (loop_body_Some _ _ Hh)|]. simpl.
  rewrite Hm, Hm'. unfold py_or.
  destruct m; [congruence|]. destruct m'; [congruence|].
  repeat split; auto.
Qed.

Lemma record_mode_change_witness :
  exists d m m',
    loop_body mode_change_segment = Return d
    /\ a_mode d = Some m /\ b_mode d = Some m'
    /\ all_chars digit m = true /\ all_chars digit m' = true.
Proof.
  eassert (Hh : diff_header mode_change_segment = Some _)
    by (vm_compute; reflexivity).
  destruct (record_mode_change mode_change_segment _ Hh) as (d & m & m' & H).
  - vm_compute. eauto.
  - exists d, m, m'. tauto.
Defined.

(** X7: a segment without a line feed has no header: when the path pair is
    the last line before the next [diff --git], the parse raises. *)
Theorem segment_without_line_feed_raises :
  forall text seg,
    In seg (segments text) ->
    has_char LF seg = false ->
    list_from_string text = Raise (AttributeError no_groups).
Proof.
  intros text seg Hin Hlf. apply (loop_Raise _ seg Hin).
  destruct (diff_header seg) as [header|] eqn:Hh; [|reflexivity].
  destruct (header_span _ _ Hh) as (head & Hseg & _ & Hhead).
  rewrite Hseg, has_char_append, Hhead in Hlf. discriminate.
Qed.

Lemma segment_without_line_feed_raises_witness :
  list_from_string bare_header_text = Raise (AttributeError no_groups).
Proof.
  apply (segment_without_line_feed_raises bare_header_text " a/x b/y").
  - vm_compute. left. reflexivity.
  - reflexivity.
Defined.

(** X8: a text in which no line starts with [diff --git], the empty text
    among them, parses to no record and raises nothing. *)
Theorem no_marker_line_no_record :
  forall text, marker_lines text = 0 -> list_from_string text = Return [].
Proof.
  intros text H. unfold list_from_string.
  rewrite <- segments_length in H.
  destruct (segments text); [reflexivity | discriminate].
Qed.

Lemma no_marker_line_no_record_witness :
  list_from_string "" = Return []
  /\ list_from_string (lines [ "old mode 100644"; "x diff --git a/x b/x" ]) = Return [].
Proof. split; apply no_marker_line_no_record; reflexivity. Defined.

(** ** Text before the first marker *)

Lemma split_from_cur (sep s : string) :
  forall skip cur,
    split_from sep s skip cur =
      match split_from sep s skip "" with
      | p :: l => (cur +:+ p) :: l
      | [] => []
      end.
Proof.
  induction s as [|c s IH]; intros skip cur.
  - simpl. now rewrite append_nil_r.
  - destruct skip as [|n]; [|simpl; apply IH].
    rewrite !split_from_cons. destruct (String.prefix sep (String c s)).
    + now rewrite append_nil_r.
    + rewrite (IH 0 (cur +:+ String c "")), (IH 0 ("" +:+ String c "")).
      destruct (split_from sep s 0 ""); [reflexivity|].
      now rewrite append_assoc3.
Qed.

(** A text without line feed that starts a text up to a line feed starts
    the text before it. *)
Lemma prefix_before_char (c : ascii) (t : string) (m : string) :
  forall a, has_char c m = false ->
    String.prefix m (a +:+ String c t) = true -> String.prefix m a = true.
Proof.
  induction m as [|d m IH]; intros a Hm H; [now destruct a|].
  simpl in Hm. apply orb_false_iff in Hm. destruct Hm as [Hd Hm].
  destruct a as [|x a].
  - change ("" +:+ String c t) with (String c t) in H.
    change (String.prefix (String d m) (String c t))
      with (if ascii_dec d c then String.prefix m t else false) in H.
    destruct (ascii_dec d c) as [->|]; [|discriminate].
    now rewrite Ascii.eqb_refl in Hd.
  - change (String x a +:+ String c t) with (String x (a +:+ String c t)) in H.
    change (String.prefix (String d m) (String x (a +:+ String c t)))
      with (if ascii_dec d x then String.prefix m (a +:+ String c t) else false) in H.
    change (String.prefix (String d m) (String x a))
      with (if ascii_dec d x then String.prefix m a else false).
    destruct (ascii_dec d x); [now apply IH | discriminate].
Qed.

(** No separator starts in a text without one and ends behind it, when a
    line feed follows the text. *)
Lemma split_from_before (t : string) (a : string) :
  forall cur,
    occurrences separator a = 0 ->
    split_from separator (a +:+ String LF t) 0 cur
    = split_from separator (String LF t) 0 (cur +:+ a).
Proof.
  induction a as [|c a IH]; intros cur Hocc.
  - now rewrite append_nil_r.
  - rewrite occurrences_cons in Hocc.
    destruct (String.prefix separator (String c a)) eqn:E; [discriminate|].
    change (String c a +:+ String LF t) with (String c (a +:+ String LF t)).
    rewrite split_from_cons.
    destruct (String.prefix separator (String c (a +:+ String LF t))) eqn:E'.
    + exfalso.
      change (String.prefix separator (String c (a +:+ String LF t)))
        with (if ascii_dec LF c then String.prefix marker (a +:+ String LF t) else false) in E'.
      change (String.prefix separator (String c a))
        with (if ascii_dec LF c then String.prefix marker a else false) in E.
      destruct (ascii_dec LF c); [|discriminate].
      apply prefix_before_char in E'; [congruence | reflexivity].
    + rewrite IH by (simpl in Hocc; lia). now rewrite append_assoc3.
Qed.

(** X9: text put before a diff does not change the parse, as long as none
    of its lines starts with [diff --git]. *)
Theorem text_before_first_marker_ignored :
  forall before text,
    marker_lines before = 0 ->
    list_from_string (before +:+ nl +:+ text) = list_from_string text.
Proof.
  intros before text H. unfold list_from_string. f_equal.
  unfold segments, split.
  change (nl +:+ before +:+ nl +:+ text) with (String LF before +:+ String LF text).
  rewrite split_from_before
    by (rewrite (occurrences_marker_lines before LF); exact H).
  rewrite split_from_cur. change (nl +:+ text) with (String LF text).
  now destruct (split_from separator (String LF text) 0 "").
Qed.

Lemma text_before_first_marker_ignored_witness :
  list_from_string (lines [ "commit 1f2e3d"; "Author: A" ] +:+ nl +:+ example_text)
  = list_from_string example_text.
Proof. apply text_before_first_marker_ignored. reflexivity. Defined.

(** ** What [commit] and [tag] return *)

Section Accessors.

Import TagPy.

Variables (str : TagReference -> string) (r : Repo) (self : TagReference).

Lemma reaches_trans (o x y : Object) : reaches r o x -> reaches r x y -> reaches r o y.
Proof.
  induction 1 as [|o o' x id Ht Hid Ho _ IH]; [auto|].
  intros Hxy. eapply reaches_tag; eauto.
Qed.

Lemma reaches_step (o o' : Object) (id : string) :
  type o = "tag" -> tagged o = Some id -> odb r !! id = Some o' -> reaches r o o'.
Proof. intros. eapply reaches_tag; eauto. apply reaches_here. Qed.

(** What the loop does from an object, read backwards: a returned object is
    a commit at the end of the chain; an exception is the [ValueError] for
    an object at its end that is neither commit nor tag, or what loading
    the tagged object of a tag object on the chain raised. *)
Lemma commit_loop_result (fuel : nat) :
  forall o res,
    commit_loop str fuel r self o = Some res ->
    match res with
    | Return c => reaches r o c /\ type c = "commit"
    | Raise e =>
        exists x, reaches r o x
          /\ (type x <> "commit" /\ type x <> "tag"
              /\ e = ValueError (cannot_resolve str self (type x))
              \/ type x = "tag" /\ Object_object r x = Raise e)
    end.
Proof.
  induction fuel as [|fuel IH]; intros o res H; simpl in H.
  - destruct (String.eqb_spec (type o) "commit") as [Hc|Hc]; [|discriminate].
    injection H as <-. split; [apply reaches_here | assumption].
  - destruct (String.eqb_spec (type o) "commit") as [Hc|Hc]; simpl in H.
    { injection H as <-. split; [apply reaches_here | assumption]. }
    destruct (String.eqb_spec (type o) "tag") as [Ht|Ht].
    + destruct (Object_object r o) as [o'|e] eqn:Hload.
      * assert (Hstep : reaches r o o').
        { unfold Object_object, fetch in Hload.
          destruct (tagged o) as [id|] eqn:Hid; [|discriminate].
          destruct (odb r !! id) as [o''|] eqn:Ho; [|discriminate].
          injection Hload as <-. eapply reaches_step; eauto. }
        apply IH in H. destruct res as [c|e].
        -- destruct H as [H1 H2]. split; [eapply reaches_trans; eauto | assumption].
        -- destruct H as (x & H1 & H2). exists x.
           split; [eapply reaches_trans; eauto | assumption].
      * injection H as <-. exists o. split; [apply reaches_here | auto].
    + injection H as <-. exists o. split; [apply reaches_here | auto].
Qed.

(** More iterations do not change what the loop has returned. *)
Lemma commit_loop_more (fuel : nat) :
  forall o res n,
    commit_loop str fuel r self o = Some res ->
    commit_loop str (fuel + n) r self o = Some res.
Proof.
  induction fuel as [|fuel IH]; intros o res n H; simpl in H.
  - destruct (String.eqb_spec (type o) "commit") as [Hc|Hc]; [|discriminate].
    now rewrite commit_loop_commit.
  - simpl. destruct (negb (type o =? "commit")%string); [|assumption].
    destruct (type o =? "tag")%string; [|assumption].
    destruct (Object_object r o); [now apply IH | assumption].
Qed.

End Accessors.

(** X10: what [commit] returns is a commit, and it is the end of the chain
    of tag objects that starts at the object of the reference; it never
    returns a tag, a tree or a blob. *)
Theorem commit_returns_only_commits :
  forall str fuel r self c,
    TagPy.commit str fuel r self = Some (Return c) ->
    TagPy.type c = "commit"
    /\ exists o, TagPy.get_object r self = Return o /\ reaches r o c.
Proof.
  intros str fuel r self c H. unfold TagPy.commit in H.
  destruct (TagPy.get_object r self) as [o|e] eqn:Hget; [|discriminate].
  apply commit_loop_result in H. destruct H as [Hreach Hc].
  split; [assumption|]. exists o. auto.
Qed.

Lemma commit_returns_only_commits_witness :
  TagPy.type the_commit = "commit"
  /\ exists o, TagPy.get_object chained_repo v1 = Return o
               /\ reaches chained_repo o the_commit.
Proof.
  apply (commit_returns_only_commits short_name 2 chained_repo v1 the_commit).
  vm_compute. reflexivity.
Defined.

(** X11: where an exception of [commit] comes from, once the object of the
    reference is loaded: it is what loading the tagged object of a tag object
    on the chain raised, or it is the [ValueError] of the loop, and then the
    chain ends in an object that is neither a commit nor a tag, whose kind
    the message names behind the printed form of the reference. *)
Theorem commit_exception_origin :
  forall str fuel r self o e,
    TagPy.get_object r self = Return o ->
    TagPy.commit str fuel r self = Some (Raise e) ->
    exists x,
      reaches r o x
      /\ (TagPy.type x <> "commit" /\ TagPy.type x <> "tag"
          /\ e = ValueError
                 ("Cannot resolve commit as tag " +:+ str self
                  +:+ " points to a " +:+ TagPy.type x
                  +:+ " object - use the `.object` property instead to access it")
          \/ TagPy.type x = "tag" /\ TagPy.Object_object r x = Raise e).
Proof.
  intros str fuel r self o e Hget H. unfold TagPy.commit in H.
  rewrite Hget in H. apply commit_loop_result in H. exact H.
Qed.

Lemma commit_exception_origin_witness :
  exists x,
    reaches tree_repo_a tree_a x
    /\ (TagPy.type x <> "commit" /\ TagPy.type x <> "tag"
        /\ ValueError (TagPy.cannot_resolve short_name v1 "tree")
           = ValueError
               ("Cannot resolve commit as tag " +:+ short_name v1
                +:+ " points to a " +:+ TagPy.type x
                +:+ " object - use the `.object` property instead to access it")
        \/ TagPy.type x = "tag"
           /\ TagPy.Object_object tree_repo_a x
              = Raise (ValueError (TagPy.cannot_resolve short_name v1 "tree"))).
Proof.
  apply (commit_exception_origin short_name 1 tree_repo_a v1 tree_a).
  - vm_compute. reflexivity.
  - vm_compute. reflexivity.
Defined.

(** X12: [tag] and [commit] together: on a light-weight tag ([tag] is
    [None]) a commit that [commit] returns is the object of the reference
    itself; on an annotated tag it is another object, reached from the tag
    object that [tag] returns. *)
Theorem tag_then_commit :
  forall str fuel r self c,
    TagPy.commit str fuel r self = Some (Return c) ->
    (TagPy.tag r self = Return None -> TagPy.get_object r self = Return c)
    /\ (forall t, TagPy.tag r self = Return (Some t) ->
                  TagPy.type t = "tag" /\ reaches r t c /\ c <> t).
Proof.
  intros str fuel r self c H. unfold TagPy.commit, TagPy.tag in *.
  destruct (TagPy.get_object r self) as [o|e] eqn:Hget; [|discriminate].
  simpl. destruct (String.eqb_spec (TagPy.type o) "tag") as [Ht|Ht].
  - split; [discriminate|]. intros t Et. injection Et as <-.
    apply commit_loop_result in H. destruct H as [Hreach Hc].
    repeat split; auto. intros ->. congruence.
  - split; [|discriminate]. intros _. f_equal.
    destruct (String.eqb_spec (TagPy.type o) "commit") as [Hc|Hc].
    + rewrite commit_loop_commit in H by assumption. congruence.
    + destruct fuel as [|fuel].
      * simpl in H. apply String.eqb_neq in Hc. rewrite Hc in H. discriminate.
      * rewrite commit_loop_other in H by assumption. discriminate.
Qed.

Lemma tag_then_commit_witness :
  (TagPy.tag light_repo v1 = Return None -> TagPy.get_object light_repo v1 = Return the_commit)
  /\ (forall t, TagPy.tag chained_repo v1 = Return (Some t) ->
                TagPy.type t = "tag" /\ reaches chained_repo t the_commit /\ the_commit <> t).
Proof.
  split.
  - apply (tag_then_commit short_name 1 light_repo v1 the_commit).
    vm_compute. reflexivity.
  - apply (tag_then_commit short_name 2 chained_repo v1 the_commit).
    vm_compute. reflexivity.
Defined.

(** X13: the loop of [commit] has no bound on the chain: where every object
    the chain leads to is again a tag object whose tagged object is in the
    database, it runs for ever. *)
Theorem commit_runs_on_endless_chain :
  forall str r self o,
    TagPy.get_object r self = Return o ->
    (forall x, reaches r o x ->
               TagPy.type x = "tag"
               /\ exists id x', TagPy.tagged x = Some id /\ TagPy.odb r !! id = Some x') ->
    forall fuel, TagPy.commit str fuel r self = None.
Proof.
  intros str r self o Hget Hall fuel. unfold TagPy.commit. rewrite Hget. clear Hget.
  revert o Hall. induction fuel as [|fuel IH]; intros o Hall;
    destruct (Hall o (reaches_here r o)) as (Ht & id & o' & Hid & Ho).
  - simpl. now rewrite Ht.
  - rewrite (commit_loop_tag str r self o o' id) by assumption.
    apply IH. intros x Hx. apply Hall.
    eapply reaches_tag; eauto.
Qed.

Lemma reaches_self_tag (o x : TagPy.Object) :
  reaches self_tag_repo o x -> o = self_tag -> x = self_tag.
Proof.
  induction 1 as [o|o o' x id Ht Hid Ho _ IH]; intros Eo; [assumption|].
  apply IH. subst o. simpl in Hid. injection Hid as <-.
  vm_compute in Ho. now injection Ho as <-.
Qed.

Lemma commit_runs_on_endless_chain_witness :
  TagPy.commit short_name 100 self_tag_repo v1 = None.
Proof.
  apply (commit_runs_on_endless_chain short_name self_tag_repo v1 self_tag).
  - vm_compute. reflexivity.
  - intros x Hx.
    rewrite (reaches_self_tag _ _ Hx eq_refl). split; [reflexivity|]. exists "5e1f", self_tag.
    split; [reflexivity | vm_compute; reflexivity].
Defined.

(** ** The commands of [create] and [delete] *)

Section Commands.

Import TagPy.

Variable backend : Backend.

Lemma create_unfold (tag ref : string) (push : bool) (message : option string)
      (force : bool) (kwargs : gmap string kwvalue) (log : list GitCmd) :
  create backend tag push ref message force kwargs log =
    let cmd := create_tag_cmd tag ref message force kwargs in
    match backend log cmd with
    | Some status => (Raise (GitCommandError status), log ++ [cmd])
    | None =>
        let new := CRef (mkTagReference ("refs/tags/" +:+ tag)) in
        if push then
          let kw := if truthy message
                    then base.delete "m" (create_tag_kwargs message force kwargs)
                    else create_tag_kwargs message force kwargs in
          let pushed := (log ++ [cmd]) ++ [Git "push" ["origin"; tag] kw] in
          match backend (log ++ [cmd]) (Git "push" ["origin"; tag] kw) with
          | Some _ => (Return CFalse, pushed)
          | None => (Return new, pushed)
          end
        else (Return new, log ++ [cmd])
    end.
Proof.
  unfold create, git, create_tag_cmd, create_tag_kwargs.
  destruct message as [[|c m]|]; simpl;
    destruct force;
    match goal with |- context [backend log ?c] => destruct (backend log c) end;
    try reflexivity; destruct push; try reflexivity;
    match goal with |- context [backend (log ++ ?l) ?c] => destruct (backend (log ++ l) c) end;
    reflexivity.
Qed.

End Commands.

(** X14: [create] raises only what the local [git tag] raised, and then it
    ran no other command, whether or not a push was asked for. *)
Theorem create_raises_only_local_failure :
  forall backend tag push ref message force kwargs log e,
    fst (TagPy.create backend tag push ref message force kwargs log) = Raise e ->
    exists status,
      e = GitCommandError status
      /\ backend log (create_tag_cmd tag ref message force kwargs) = Some status
      /\ snd (TagPy.create backend tag push ref message force kwargs log)
         = log ++ [create_tag_cmd tag ref message force kwargs].
Proof.
  intros backend tag push ref message force kwargs log e.
  rewrite create_unfold. cbv zeta.
  destruct (backend log _) as [status|]; simpl.
  - intros H. injection H as <-. eauto.
  - destruct push; [|discriminate].
    destruct (backend (log ++ _) _); discriminate.
Qed.

Lemma create_raises_only_local_failure_witness :
  exists status,
    GitCommandError 128 = GitCommandError status
    /\ tag_fails 128 [] (create_tag_cmd "v1" "HEAD" (Some "release") true ∅) = Some status
    /\ snd (TagPy.create (tag_fails 128) "v1" true "HEAD" (Some "release") true ∅ [])
       = [] ++ [create_tag_cmd "v1" "HEAD" (Some "release") true ∅].
Proof.
  apply (create_raises_only_local_failure (tag_fails 128) "v1" true "HEAD"
           (Some "release") true ∅ []).
  vm_compute. reflexivity.
Defined.

(** X15: when [create] returns a reference, every command it ran succeeded,
    the push included when one was asked for, and the reference is
    [refs/tags/<tag>]. *)
Theorem create_returns_reference_after_success :
  forall backend tag push ref message force kwargs log t,
    fst (TagPy.create backend tag push ref message force kwargs log)
    = Return (TagPy.CRef t) ->
    TagPy.path t = "refs/tags/" +:+ tag
    /\ backend log (create_tag_cmd tag ref message force kwargs) = None
    /\ (push = true ->
        exists cmd,
          snd (TagPy.create backend tag push ref message force kwargs log)
          = log ++ [create_tag_cmd tag ref message force kwargs; cmd]
          /\ TagPy.sub cmd = "push" /\ TagPy.args cmd = ["origin"; tag]
          /\ backend (log ++ [create_tag_cmd tag ref message force kwargs]) cmd = None).
Proof.
  intros backend tag push ref message force kwargs log t.
  rewrite create_unfold. cbv zeta.
  destruct (backend log _) as [status|] eqn:Etag; simpl; [discriminate|].
  destruct push.
  - destruct (backend (log ++ _) _) eqn:Epush; simpl; [discriminate|].
    intros H. injection H as <-. repeat split. intros _.
    eexists. rewrite <- app_assoc. split; [reflexivity|]. repeat split. exact Epush.
  - simpl. intros H. injection H as <-. repeat split. discriminate.
Qed.

Lemma create_returns_reference_after_success_witness :
  TagPy.path (TagPy.mkTagReference "refs/tags/v1") = "refs/tags/" +:+ "v1"
  /\ all_succeed [] (create_tag_cmd "v1" "HEAD" None false ∅) = None
  /\ (true = true ->
      exists cmd,
        snd (TagPy.create all_succeed "v1" true "HEAD" None false ∅ [])
        = [] ++ [create_tag_cmd "v1" "HEAD" None false ∅; cmd]
        /\ TagPy.sub cmd = "push" /\ TagPy.args cmd = ["origin"; "v1"]
        /\ all_succeed ([] ++ [create_tag_cmd "v1" "HEAD" None false ∅]) cmd = None).
Proof.
  apply (create_returns_reference_after_success all_succeed "v1" true "HEAD" None
           false ∅ [] (TagPy.mkTagReference "refs/tags/v1")).
  vm_compute. reflexivity.
Defined.

(** X16: with a non-empty message, [git tag] gets it as option [m] and the
    push that follows does not; every other option, [f] among them, is the
    same for both. *)
Theorem create_push_drops_message :
  forall backend tag ref c m force kwargs log,
    backend log (create_tag_cmd tag ref (Some (String c m)) force kwargs) = None ->
    exists kw kw',
      snd (TagPy.create backend tag true ref (Some (String c m)) force kwargs log)
      = log ++ [TagPy.Git "tag" [tag; ref] kw; TagPy.Git "push" ["origin"; tag] kw']
      /\ kw !! "m" = Some (TagPy.KStr (String c m))
      /\ kw' !! "m" = None
      /\ (forall k, k <> "m" -> kw' !! k = kw !! k)
      /\ (force = true -> kw !! "f" = Some TagPy.KTrue).
Proof.
  intros backend tag ref c m force kwargs log Htag.
  rewrite create_unfold. cbv zeta. rewrite Htag.
  exists (create_tag_kwargs (Some (String c m)) force kwargs),
         (delete "m" (create_tag_kwargs (Some (String c m)) force kwargs)).
  split.
  - simpl truthy. cbv iota. rewrite <- app_assoc.
    destruct (backend (log ++ _) _); reflexivity.
  - unfold create_tag_kwargs. repeat split.
    + destruct force; [rewrite lookup_insert_ne by discriminate|];
        apply lookup_insert_eq.
    + apply lookup_delete_eq.
    + intros k Hk. now apply lookup_delete_ne.
    + intros ->. apply lookup_insert_eq.
Qed.

Lemma create_push_drops_message_witness :
  exists kw kw',
    snd (TagPy.create all_succeed "v1" true "HEAD" (Some "release") true ∅ [])
    = [] ++ [TagPy.Git "tag" ["v1"; "HEAD"] kw; TagPy.Git "push" ["origin"; "v1"] kw']
    /\ kw !! "m" = Some (TagPy.KStr "release")
    /\ kw' !! "m" = None
    /\ (forall k, k <> "m" -> kw' !! k = kw !! k)
    /\ (true = true -> kw !! "f" = Some TagPy.KTrue).
Proof.
  apply (create_push_drops_message all_succeed "v1" "HEAD" "r" "elease" true ∅ []).
  reflexivity.
Defined.

Section DeleteCommands.

Import TagPy.

Variables (backend : Backend) (kwargs : gmap string kwvalue).

(** The pushes of [delete] are those of the first tags, in order; it stops
    with [False] behind a push, or with [None] behind the last tag. *)
Lemma delete_push_prefix (tags : list string) :
  forall log,
    exists k, k <= length tags
      /\ snd (delete_push backend (<["d" := KTrue]> kwargs) tags log)
         = log ++ map (push_delete_cmd kwargs) (take k tags)
      /\ (fst (delete_push backend (<["d" := KTrue]> kwargs) tags log) = Return None
          /\ k = length tags
          \/ fst (delete_push backend (<["d" := KTrue]> kwargs) tags log)
             = Return (Some false)
             /\ 0 < k).
Proof.
  induction tags as [|tag tags IH]; intros log.
  - exists 0. simpl. rewrite app_nil_r. auto.
  - rewrite delete_push_cons. unfold git.
    destruct (backend log (push_delete_cmd kwargs tag)) as [status|].
    + exists 1. simpl. repeat split; [lia|]. right. split; [reflexivity | lia].
    + destruct (IH (log ++ [push_delete_cmd kwargs tag])) as (k & Hk & Hlog & Hres).
      exists (S k). simpl. rewrite Hlog, <- app_assoc.
      repeat split; [lia|]. destruct Hres as [[-> ->]|[-> Hpos]]; [left | right]; split; auto; lia.
Qed.

End DeleteCommands.

(** X17: whatever the backend does, [delete] runs the one [git tag -d] for
    all tags and then pushes the deletion of some first tags, in their order
    and each once. It pushes nothing without [push] or when the local
    deletion failed; it raises only the failure of the local deletion; it
    returns [False] only behind a push, and [None] with [push] only behind
    the push of the last tag. *)
Theorem delete_commands :
  forall backend push tags kwargs log,
    exists k,
      k <= length tags
      /\ snd (TagPy.delete backend push tags kwargs log)
         = ran log kwargs tags (take k tags)
      /\ match fst (TagPy.delete backend push tags kwargs log) with
         | Raise e =>
             k = 0 /\ exists status, e = GitCommandError status
                      /\ backend log (delete_cmd tags) = Some status
         | Return None => if push then k = length tags else k = 0
         | Return (Some b) => b = false /\ push = true /\ 0 < k
         end.
Proof.
  intros backend push tags kwargs log. unfold TagPy.delete, TagPy.git.
  fold (delete_cmd tags).
  destruct (backend log (delete_cmd tags)) as [status|] eqn:Edel.
  - exists 0. simpl. repeat split; [lia | eauto].
  - destruct push.
    + destruct (delete_push_prefix backend kwargs tags (log ++ [delete_cmd tags]))
        as (k & Hk & Hlog & Hres).
      exists k. rewrite Hlog, ran_app. repeat split; [assumption|].
      destruct Hres as [[-> ->]|[-> Hpos]]; auto.
    + exists 0. simpl. rewrite ran_app. simpl. rewrite app_nil_r.
      repeat split. lia.
Qed.

Lemma delete_commands_example :
  TagPy.delete (push_of_fails "b" 1) true ["a"; "b"; "c"] ∅ []
  = (Return (Some false), ran [] ∅ ["a"; "b"; "c"] (take 2 ["a"; "b"; "c"]))
  /\ TagPy.delete (tag_fails 1) true ["a"; "b"; "c"] ∅ []
     = (Raise (GitCommandError 1), ran [] ∅ ["a"; "b"; "c"] [])
  /\ TagPy.delete all_succeed false ["a"] ∅ [] = (Return None, ran [] ∅ ["a"] [])
  /\ TagPy.delete all_succeed true [] ∅ [] = (Return None, [delete_cmd []]).
Proof. repeat split. Qed.

(** ** A diff after another *)

Lemma split_from_nonempty (sep s : string) :
  forall skip cur, split_from sep s skip cur <> [].
Proof.
  induction s as [|c s IH]; intros skip cur; [discriminate|].
  destruct skip; [|apply IH].
  rewrite split_from_cons.
  destruct (String.prefix sep (String c s)); [discriminate | apply IH].
Qed.

(** Whether a separator starts at the head of a text does not depend on a
    line feed and more behind the text. *)
Lemma prefix_separator_before (c : ascii) (a t : string) :
  String.prefix separator (String c a +:+ String LF t)
  = String.prefix separator (String c a).
Proof.
  destruct (String.prefix separator (String c a)) eqn:E.
  - now apply prefix_append_l.
  - destruct (String.prefix separator (String c a +:+ String LF t)) eqn:E';
      [|reflexivity].
    change (String.prefix separator (String c a +:+ String LF t))
      with (if ascii_dec LF c then String.prefix marker (a +:+ String LF t) else false) in E'.
    change (String.prefix separator (String c a))
      with (if ascii_dec LF c then String.prefix marker a else false) in E.
    destruct (ascii_dec LF c); [|discriminate].
    apply prefix_before_char in E'; [congruence | reflexivity].
Qed.

Lemma split_from_glue (t : string) (n : nat) :
  forall a cur, String.length a <= n ->
    split_from separator (a +:+ String LF t) 0 cur
    = glue (split_from separator a 0 cur) (String LF t).
Proof.
  induction n as [|n IH]; intros a cur Hn.
  - destruct a; [reflexivity | simpl in Hn; lia].
  - destruct a as [|c a]; [reflexivity|].
    change (String c a +:+ String LF t) with (String c (a +:+ String LF t)).
    rewrite !split_from_cons.
    change (String c (a +:+ String LF t)) with (String c a +:+ String LF t).
    rewrite prefix_separator_before.
    destruct (String.prefix separator (String c a)) eqn:E.
    + apply prefix_split in E. destruct E as [u E].
      assert (Ha : a = marker +:+ u) by (injection E; auto).
      subst a. change (String.length separator - 1) with (String.length marker).
      rewrite append_assoc3, !split_from_skip.
      rewrite IH by (simpl in Hn; lia).
      pose proof (split_from_nonempty separator u 0 "") as Hne.
      destruct (split_from separator u 0 "") as [|p l]; [congruence | reflexivity].
    + apply IH. simpl in Hn. lia.
Qed.

Lemma glue_separator (pieces : list string) (b : string) :
  pieces <> [] ->
  glue pieces (separator +:+ b) = pieces ++ split separator b.
Proof.
  induction pieces as [|p l IH]; intros Hne; [congruence|].
  destruct l as [|q l].
  - change (glue [p] (separator +:+ b))
      with (split_from separator (separator +:+ b) 0 p).
    now rewrite split_from_separator.
  - change (glue (p :: q :: l) (separator +:+ b))
      with (p :: glue (q :: l) (separator +:+ b)).
    rewrite IH by discriminate. reflexivity.
Qed.

Lemma segments_concat (a b : string) :
  segments (a +:+ nl +:+ marker +:+ b) = segments a ++ segments (marker +:+ b).
Proof.
  unfold segments, split.
  change (nl +:+ a +:+ nl +:+ marker +:+ b)
    with (String LF a +:+ String LF (marker +:+ b)).
  rewrite (split_from_glue _ _ _ "" (le_n _)).
  change (String LF (marker +:+ b)) with (separator +:+ b).
  rewrite glue_separator by apply split_from_nonempty.
  change (nl +:+ marker +:+ b) with (separator +:+ b).
  rewrite split_from_separator.
  change (nl +:+ a) with (String LF a).
  pose proof (split_from_nonempty separator (String LF a) 0 "") as Hne.
  destruct (split_from separator (String LF a) 0 "") as [|p l]; [congruence | reflexivity].
Qed.

Lemma loop_concat (l1 l2 : list string) :
  loop [] (l1 ++ l2) = (ds1 ← loop [] l1; ds2 ← loop [] l2; Return (ds1 ++ ds2)).
Proof.
  induction l1 as [|seg l1 IH].
  - simpl. now destruct (loop [] l2).
  - change ((seg :: l1) ++ l2) with (seg :: (l1 ++ l2)).
    rewrite !loop_cons, IH. destruct (loop_body seg); [|reflexivity].
    destruct (loop [] l1); [|reflexivity]. simpl.
    destruct (loop [] l2); reflexivity.
Qed.

(** X18: the records of a text and a diff behind it, a line feed between
    them, are the records of the text followed by those of the diff; the
    first exception of the two parses is the exception of the whole. *)
Theorem parse_of_concatenation :
  forall a b,
    list_from_string (a +:+ nl +:+ marker +:+ b)
    = (ds1 ← list_from_string a;
       ds2 ← list_from_string (marker +:+ b);
       Return (ds1 ++ ds2)).
Proof.
  intros a b. unfold list_from_string.
  rewrite segments_concat. apply loop_concat.
Qed.

(** ** Matching a header that was written out *)

(** The texts of the two examples. *)
Example write_segment_examples :
  marker +:+ write_segment written_example ""
  = lines [ "diff --git a/x b/y"; "deleted file mode 100644";
            "index e69de29..0000000 100600" ] +:+ nl
  /\ marker +:+ write_segment written_rename "@@"
     = lines [ "diff --git a/old.py b/new.py"; "similarity index 90%";
               "rename from old.py"; "rename to new.py";
               "old mode 100644"; "new mode 100755"; "@@" ].
Proof. split; vm_compute; reflexivity. Qed.

Section Stepping.

Implicit Types (r : regex) (st : mstate) (k : mstate -> option mstate).

Lemma run_Seq_eq r1 r2 st k :
  run (Seq r1 r2) st k = run r1 st (fun st' => run r2 st' k).
Proof. reflexivity. Qed.

Lemma run_Bol_eq st k : at_bol st = true -> run Bol st k = k st.
Proof. intros H. simpl. now rewrite H. Qed.

Lemma run_Lit_eq (s : string) st st' k :
  lit s st = Some st' -> run (Lit s) st k = k st'.
Proof. intros H. simpl. now rewrite H. Qed.

Lemma run_Cls_eq (p : ascii -> bool) (c : ascii) (t : string) n pv cs k :
  p c = true ->
  run (Cls p) (MState n pv (String c t) cs) k = k (MState (S n) (Some c) t cs).
Proof. intros H. simpl. now rewrite H. Qed.

Lemma run_Alt_l r1 r2 st k R : run r1 st k = Some R -> run (Alt r1 r2) st k = Some R.
Proof. intros H. simpl. now rewrite H. Qed.

Lemma run_Opt_some r st k R : run r st k = Some R -> run (Opt r) st k = Some R.
Proof. intros H. simpl. now rewrite H. Qed.

(** A block whose first word does not start the text is passed over. *)
Lemma run_Opt_skip (s : string) r (t : string) n pv cs k :
  lit s (MState n pv t cs) = None ->
  run (Opt (Bol ;;; Lit s ;;; r)) (MState n pv t cs) k = k (MState n pv t cs).
Proof.
  intros H. simpl. destruct (at_bol (MState n pv t cs)); [|reflexivity].
  now rewrite H.
Qed.

Lemma star_max (p : ascii -> bool) (w : string) :
  forall t n pv cs k R,
    all_chars p w = true -> stops p t = true ->
    k (MState (n + String.length w) (last_char w pv) t cs) = Some R ->
    star p (w +:+ t) n pv cs k = Some R.
Proof.
  induction w as [|c w IH]; intros t n pv cs k R Hall Hstop Hk.
  - simpl in Hk. rewrite Nat.add_0_r in Hk. change ("" +:+ t) with t.
    destruct t as [|d t]; simpl; [assumption|].
    simpl in Hstop. apply negb_true_iff in Hstop. now rewrite Hstop.
  - simpl in Hall. apply andb_true_iff in Hall. destruct Hall as [Hc Hw].
    change (String c w +:+ t) with (String c (w +:+ t)). simpl. rewrite Hc.
    rewrite (IH t (S n) (Some c) cs k R); auto.
    simpl in Hk. now replace (S n + String.length w) with (n + S (String.length w)) by lia.
Qed.

Lemma substring_cons_append (c : ascii) (w t : string) (m : nat) :
  m = S (String.length w) -> substring 0 m (String c (w +:+ t)) = String c w.
Proof. intros ->. simpl. now rewrite substring_append. Qed.

(** A group that repeats a class takes a whole token when what follows the
    token is not in the class. *)
Lemma run_Grp_Plus_max (g : string) (p : ascii -> bool) (w t : string) n pv cs k R :
  w <> "" /\ all_chars p w = true -> stops p t = true ->
  k (MState (n + String.length w) (last_char w pv) t (<[g := w]> cs)) = Some R ->
  run (Grp g (Plus p)) (MState n pv (w +:+ t) cs) k = Some R.
Proof.
  intros [Hne Hall] Hstop Hk. destruct w as [|c w]; [congruence|].
  simpl in Hall. apply andb_true_iff in Hall. destruct Hall as [Hc Hw].
  change (run (Grp g (Plus p)) (MState n pv (String c w +:+ t) cs) k)
    with (plus p (MState n pv (String c (w +:+ t)) cs)
            (fun st' => k (set_group g
               (substring 0 (pos st' - n) (String c (w +:+ t))) st'))).
  unfold plus. cbn [rest pos caps]. rewrite Hc.
  apply star_max; [assumption | assumption|].
  unfold set_group. cbn [rest pos caps prev].
  rewrite (substring_cons_append c w t) by lia.
  simpl in Hk. now replace (S n + String.length w) with (n + S (String.length w)) by lia.
Qed.

Lemma run_Opt_Cls_miss (p : ascii -> bool) (t : string) n pv cs k :
  stops p t = true ->
  run (Opt (Cls p)) (MState n pv t cs) k = k (MState n pv t cs).
Proof.
  intros H. simpl. destruct t as [|c t]; [reflexivity|].
  simpl in H. apply negb_true_iff in H. now rewrite H.
Qed.

Lemma run_Opt_Grp_Plus_miss (g : string) (p : ascii -> bool) (t : string) n pv cs k :
  stops p t = true ->
  run (Opt (Grp g (Plus p))) (MState n pv t cs) k = k (MState n pv t cs).
Proof.
  intros H. simpl. unfold plus. simpl. destruct t as [|c t]; [reflexivity|].
  simpl in H. apply negb_true_iff in H. now rewrite H.
Qed.

End Stepping.

(** One step of the matcher on a state whose text begins as the pattern
    asks. *)
Ltac run_step :=
  unfold advance; cbn [append pos prev rest caps];
  lazymatch goal with
  | |- run (Seq _ _) _ _ = _ => rewrite run_Seq_eq
  | |- run Bol _ _ = _ => rewrite run_Bol_eq by reflexivity
  | |- run (Lit _) _ _ = _ => erewrite run_Lit_eq by (cbn; reflexivity)
  | |- run (Cls _) _ _ = _ => rewrite run_Cls_eq by reflexivity
  | |- run (Alt _ _) _ _ = _ => apply run_Alt_l
  | |- run (Opt (Cls _)) (MState _ _ (String _ _) _) _ = _ =>
      first [ rewrite run_Opt_Cls_miss by reflexivity | apply run_Opt_some ]
  | |- run (Opt (Grp _ (Plus _))) (MState _ _ (String _ _) _) _ = _ =>
      rewrite run_Opt_Grp_Plus_miss by reflexivity
  | |- run (Opt _) _ _ = _ => apply run_Opt_some
  | |- run (Grp _ (Plus _)) _ _ = _ =>
      apply run_Grp_Plus_max; [assumption | reflexivity |]
  end;
  cbv beta.

Ltac run_steps := unfold eol; unfold sp, newline; repeat run_step.

(** The state reached is the one the continuation is known to accept: the
    offsets agree. *)
Ltac run_done Hk :=
  rewrite <- Hk; f_equal; f_equal;
  unfold rename_lines, mode_lines, new_file_line_of, deleted_file_line_of,
    index_line_of, nl;
  repeat (rewrite ?length_append; cbn [String.length]); lia.

Section Blocks.

Variables (t : string) (n : nat) (cs : gmap string string)
          (k : mstate -> option mstate) (R : mstate).

Lemma run_path_pair_line (a b : string) :
  token non_space a -> token non_space b ->
  k (MState (String.length (" a/" +:+ a +:+ " b/" +:+ b +:+ nl)) (Some LF) t
       (<["b_path" := b]> (<["a_path" := a]> ∅))) = Some R ->
  run path_pair_line (MState 0 None (" a/" +:+ a +:+ " b/" +:+ b +:+ nl +:+ t) ∅) k
  = Some R.
Proof.
  intros Ha Hb Hk. unfold path_pair_line. run_steps. run_done Hk.
Qed.

Lemma run_rename_block_present (s from to : string) :
  token digit s -> token non_space from -> token non_space to ->
  k (MState (n + String.length (rename_lines (s, from, to))) (Some LF) t
       (<["rename_to" := to]> (<["rename_from" := from]>
          (<["similarity_index" := s]> cs)))) = Some R ->
  run rename_block (MState n (Some LF) (rename_lines (s, from, to) +:+ t) cs) k
  = Some R.
Proof.
  intros Hs Hfrom Hto Hk. unfold rename_block, rename_lines.
  rewrite !append_assoc3. run_steps. run_done Hk.
Qed.

Lemma run_mode_block_present (old new : string) :
  token digit old -> token digit new ->
  k (MState (n + String.length (mode_lines (old, new))) (Some LF) t
       (<["new_mode" := new]> (<["old_mode" := old]> cs))) = Some R ->
  run mode_block (MState n (Some LF) (mode_lines (old, new) +:+ t) cs) k = Some R.
Proof.
  intros Hold Hnew Hk. unfold mode_block, mode_lines.
  rewrite !append_assoc3. run_steps. run_done Hk.
Qed.

Lemma run_new_file_line_present (m : string) :
  token dot m ->
  k (MState (n + String.length (new_file_line_of m)) (Some LF) t
       (<["new_file_mode" := m]> cs)) = Some R ->
  run new_file_line (MState n (Some LF) (new_file_line_of m +:+ t) cs) k = Some R.
Proof.
  intros Hm Hk. unfold new_file_line, new_file_line_of.
  rewrite !append_assoc3. run_steps. run_done Hk.
Qed.

Lemma run_deleted_file_line_present (m : string) :
  token dot m ->
  k (MState (n + String.length (deleted_file_line_of m)) (Some LF) t
       (<["deleted_file_mode" := m]> cs)) = Some R ->
  run deleted_file_line (MState n (Some LF) (deleted_file_line_of m +:+ t) cs) k
  = Some R.
Proof.
  intros Hm Hk. unfold deleted_file_line, deleted_file_line_of.
  rewrite !append_assoc3. run_steps. run_done Hk.
Qed.

Lemma run_index_line_with_mode (a b m : string) :
  token hexdigit a -> token hexdigit b -> token dot m ->
  k (MState (n + String.length (index_line_of (a, b, Some m))) (Some LF) t
       (<["b_mode" := m]> (<["b_commit" := b]> (<["a_commit" := a]> cs)))) = Some R ->
  run index_line (MState n (Some LF) (index_line_of (a, b, Some m) +:+ t) cs) k
  = Some R.
Proof.
  intros Ha Hb Hm Hk. unfold index_line, index_line_of.
  rewrite !append_assoc3. run_steps. run_done Hk.
Qed.

Lemma run_index_line_without_mode (a b : string) :
  token hexdigit a -> token hexdigit b ->
  k (MState (n + String.length (index_line_of (a, b, None))) (Some LF) t
       (<["b_commit" := b]> (<["a_commit" := a]> cs))) = Some R ->
  run index_line (MState n (Some LF) (index_line_of (a, b, None) +:+ t) cs) k
  = Some R.
Proof.
  intros Ha Hb Hk. unfold index_line, index_line_of.
  rewrite !append_assoc3. run_steps. run_done Hk.
Qed.

End Blocks.

Section OptionalBlocks.

Variables (t : string) (n : nat) (cs : gmap string string)
          (k : mstate -> option mstate) (R : mstate).

Lemma lit_none_first (c : ascii) (s : string) (pv : option ascii) :
  stops (only c) t = true -> lit (String c s) (MState n pv t cs) = None.
Proof.
  intros H. destruct t as [|d t']; [reflexivity|]. simpl in *.
  apply negb_true_iff in H. unfold only in H.
  rewrite Ascii.eqb_sym in H. now rewrite H.
Qed.

Lemma run_rename_block_written (o : option (string * string * string)) :
  option_all (fun '(s, from, to) =>
                token digit s /\ token non_space from /\ token non_space to) o ->
  (o = None -> stops (only "s") t = true) ->
  k (MState (n + String.length (opt_lines rename_lines o)) (Some LF) t
       (set_rename o cs)) = Some R ->
  run rename_block (MState n (Some LF) (opt_lines rename_lines o +:+ t) cs) k = Some R.
Proof.
  destruct o as [[[s from] to]|]; intros Hok Hskip Hk.
  - destruct Hok as (Hs & Hfrom & Hto). now apply run_rename_block_present.
  - simpl in Hk. rewrite Nat.add_0_r in Hk. change ("" +:+ t) with t.
    unfold rename_block. rewrite run_Opt_skip; [assumption|].
    apply lit_none_first. auto.
Qed.

Lemma run_mode_block_written (o : option (string * string)) :
  option_all (fun '(old, new) => token digit old /\ token digit new) o ->
  (o = None -> stops (only "o") t = true) ->
  k (MState (n + String.length (opt_lines mode_lines o)) (Some LF) t
       (set_modes o cs)) = Some R ->
  run mode_block (MState n (Some LF) (opt_lines mode_lines o +:+ t) cs) k = Some R.
Proof.
  destruct o as [[old new]|]; intros Hok Hskip Hk.
  - destruct Hok as (Hold & Hnew). now apply run_mode_block_present.
  - simpl in Hk. rewrite Nat.add_0_r in Hk. change ("" +:+ t) with t.
    unfold mode_block. rewrite run_Opt_skip; [assumption|].
    apply lit_none_first. auto.
Qed.

Lemma run_new_file_line_written (o : option string) :
  option_all (token dot) o ->
  (o = None -> stops (only "n") t = true) ->
  k (MState (n + String.length (opt_lines new_file_line_of o)) (Some LF) t
       (set_one "new_file_mode" o cs)) = Some R ->
  run new_file_line (MState n (Some LF) (opt_lines new_file_line_of o +:+ t) cs) k
  = Some R.
Proof.
  destruct o as [m|]; intros Hok Hskip Hk.
  - now apply run_new_file_line_present.
  - simpl in Hk. rewrite Nat.add_0_r in Hk. change ("" +:+ t) with t.
    unfold new_file_line. rewrite run_Opt_skip; [assumption|].
    apply lit_none_first. auto.
Qed.

Lemma run_deleted_file_line_written (o : option string) :
  option_all (token dot) o ->
  (o = None -> stops (only "d") t = true) ->
  k (MState (n + String.length (opt_lines deleted_file_line_of o)) (Some LF) t
       (set_one "deleted_file_mode" o cs)) = Some R ->
  run deleted_file_line
    (MState n (Some LF) (opt_lines deleted_file_line_of o +:+ t) cs) k
  = Some R.
Proof.
  destruct o as [m|]; intros Hok Hskip Hk.
  - now apply run_deleted_file_line_present.
  - simpl in Hk. rewrite Nat.add_0_r in Hk. change ("" +:+ t) with t.
    unfold deleted_file_line. rewrite run_Opt_skip; [assumption|].
    apply lit_none_first. auto.
Qed.

Lemma run_index_line_written (o : option (string * string * option string)) :
  option_all (fun '(a, b, m) =>
                token hexdigit a /\ token hexdigit b /\ option_all (token dot) m) o ->
  (o = None -> stops (only "i") t = true) ->
  k (MState (n + String.length (opt_lines index_line_of o)) (Some LF) t
       (set_index o cs)) = Some R ->
  run index_line (MState n (Some LF) (opt_lines index_line_of o +:+ t) cs) k = Some R.
Proof.
  destruct o as [[[a b] [m|]]|]; intros Hok Hskip Hk.
  - destruct Hok as (Ha & Hb & Hm). now apply run_index_line_with_mode.
  - destruct Hok as (Ha & Hb & _). now apply run_index_line_without_mode.
  - simpl in Hk. rewrite Nat.add_0_r in Hk. change ("" +:+ t) with t.
    unfold index_line. rewrite run_Opt_skip; [assumption|].
    apply lit_none_first. auto.
Qed.

End OptionalBlocks.

Lemma body_ok_stops (c : ascii) (body : string) :
  body_ok body = true -> In c ["s"; "o"; "n"; "d"; "i"]%char ->
  stops (only c) body = true.
Proof.
  intros Hb Hc. destruct body as [|d body]; [reflexivity|].
  simpl in Hb. simpl. apply negb_true_iff. apply negb_true_iff in Hb.
  unfold only. destruct (Ascii.eqb_spec d c) as [->|]; [|reflexivity].
  exfalso. repeat (apply orb_false_elim in Hb as [? Hb]).
  simpl in Hc.
  destruct Hc as [<-|[<-|[<-|[<-|[<-|[]]]]]]; discriminate.
Qed.

(** The text behind a block that is left out does not begin like the block. *)
Ltac later_lines Hbody :=
  intros _;
  repeat match goal with
         | |- context [opt_lines _ ?o] => is_var o; destruct o as [?|]
         end;
  repeat match goal with
         | p : (_ * _)%type |- _ => destruct p
         end;
  first [ reflexivity
        | apply body_ok_stops; [exact Hbody | simpl; tauto] ].

Lemma diff_header_written (f : header_fields) (body : string) :
  fields_ok f -> body_ok body = true ->
  exists header,
    diff_header (write_segment f body) = Some header
    /\ caps header = fields_caps f
    /\ rest header = body
    /\ end_ header = String.length (write_segment f "").
Proof.
  destruct f as [a b rn md nf dl ix].
  intros (Ha & Hb & Hrn & Hmd & Hnf & Hdl & Hix) Hbody.
  unfold fields_ok, write_segment, fields_caps in *.
  cbn [f_a_path f_b_path f_rename f_modes f_new_file_mode f_deleted_file_mode
       f_index] in *.
  eexists. split; [|split; [|split]].
  - unfold diff_header, match_, diff_header_re, optional_lines.
    rewrite run_Seq_eq. apply run_path_pair_line; [assumption | assumption|].
    cbv beta. rewrite run_Seq_eq.
    apply run_rename_block_written; [assumption | later_lines Hbody |].
    cbv beta. rewrite run_Seq_eq.
    apply run_mode_block_written; [assumption | later_lines Hbody |].
    cbv beta. rewrite run_Seq_eq.
    apply run_new_file_line_written; [assumption | later_lines Hbody |].
    cbv beta. rewrite run_Seq_eq.
    apply run_deleted_file_line_written; [assumption | later_lines Hbody |].
    cbv beta.
    apply run_index_line_written; [assumption | later_lines Hbody |].
    reflexivity.
  - reflexivity.
  - reflexivity.
  - unfold end_. cbn [pos]. rewrite !length_append. cbn [String.length]. lia.
Qed.

Lemma fields_caps_groups (f : header_fields) :
  map (fun g => fields_caps f !! g) (group_names diff_header_re)
  = [Some (f_a_path f); Some (f_b_path f);
     (fun '(s, _, _) => s) <$> f_rename f;
     (fun '(_, from, _) => from) <$> f_rename f;
     (fun '(_, _, to) => to) <$> f_rename f;
     fst <$> f_modes f; snd <$> f_modes f;
     f_new_file_mode f; f_deleted_file_mode f;
     (fun '(a, _, _) => a) <$> f_index f;
     (fun '(_, b, _) => b) <$> f_index f;
     f_index f ≫= (fun '(_, _, m) => m)].
Proof.
  destruct f as [a b rn md nf dl ix].
  destruct rn as [[[s from] to]|], md as [[old new]|], nf as [nf|], dl as [dl|],
    ix as [[[ia ib] [im|]]|]; vm_compute; reflexivity.
Qed.

Lemma write_segment_body (f : header_fields) (body : string) :
  write_segment f body = write_segment f "" +:+ body.
Proof.
  unfold write_segment. rewrite !append_assoc3. reflexivity.
Qed.

Lemma truthy_token (p : ascii -> bool) (w : string) :
  token p w -> truthy (Some w) = true.
Proof. intros [Hw _]. destruct w; [contradiction | reflexivity]. Qed.

(** A segment written from fields parses to the record of the fields. *)
Lemma loop_body_written (f : header_fields) (body : string) :
  fields_ok f -> body_ok body = true ->
  loop_body (write_segment f body) = Return (fields_record f body).
Proof.
  intros Hf Hbody.
  destruct (diff_header_written f body Hf Hbody) as (h & Hh & Hc & _ & He).
  unfold loop_body. rewrite Hh. unfold groups, group. rewrite Hc.
  rewrite fields_caps_groups. rewrite He.
  rewrite (write_segment_body f body), drop_str_append.
  destruct f as [a b rn md nf dl ix].
  destruct Hf as (Ha & Hb & Hrn & Hmd & Hnf & Hdl & Hix).
  cbn [f_a_path f_b_path f_rename f_modes f_new_file_mode f_deleted_file_mode
       f_index] in *.
  unfold fields_record.
  cbn [f_a_path f_b_path f_rename f_modes f_new_file_mode f_deleted_file_mode
       f_index].
  destruct rn as [[[s from] to]|], md as [[old new]|], nf as [nf|], dl as [dl|],
    ix as [[[ia ib] [im|]]|]; cbn [fmap option_fmap option_map mbind option_bind fst snd];
    unfold py_or; cbn [option_all] in *;
    repeat match goal with
           | H : _ /\ _ |- _ => destruct H
           end;
    repeat match goal with
           | H : token _ ?w |- _ =>
               destruct H as [H _]; destruct w; [contradiction H; reflexivity|];
               clear H
           end;
    reflexivity.
Qed.

(** ** A written diff read back *)

Lemma occurrences_char (c : ascii) (t : string) :
  Ascii.eqb c LF = false ->
  occurrences separator (String c t) = occurrences separator t.
Proof.
  intros H. rewrite occurrences_cons.
  destruct t as [|d t].
  - change (String.prefix separator (String c ""))
      with (if ascii_dec LF c then false else false).
    now destruct (ascii_dec LF c).
  - change (String.prefix separator (String c (String d t)))
      with (if ascii_dec LF c then String.prefix marker (String d t) else false).
    destruct (ascii_dec LF c) as [<-|_]; [discriminate H | reflexivity].
Qed.

Lemma occurrences_line_feed (t : string) :
  String.prefix marker t = false ->
  occurrences separator (String LF t) = occurrences separator t.
Proof.
  intros H. rewrite occurrences_cons.
  destruct t as [|d t]; [reflexivity|].
  change (String.prefix separator (String LF (String d t)))
    with (if ascii_dec LF LF then String.prefix marker (String d t) else false).
  destruct (ascii_dec LF LF); [now rewrite H | reflexivity].
Qed.

Lemma occurrences_token (p : ascii -> bool) (w t : string) :
  p LF = false -> token p w ->
  occurrences separator (w +:+ t) = occurrences separator t.
Proof.
  intros Hp [_ Hw]. induction w as [|c w IH]; [reflexivity|].
  simpl in Hw. apply andb_true_iff in Hw. destruct Hw as [Hc Hw].
  change (String c w +:+ t) with (String c (w +:+ t)).
  rewrite occurrences_char; [now apply IH|].
  destruct (Ascii.eqb_spec c LF) as [->|]; [congruence | reflexivity].
Qed.

(** The header lines hold no marker line: the marker lines of a written
    segment are those of its body. *)
Lemma occurrences_write_segment (f : header_fields) (body : string) :
  fields_ok f ->
  occurrences separator (write_segment f body) = marker_lines body.
Proof.
  destruct f as [a b rn md nf dl ix].
  intros (Ha & Hb & Hrn & Hmd & Hnf & Hdl & Hix).
  unfold write_segment.
  cbn [f_a_path f_b_path f_rename f_modes f_new_file_mode f_deleted_file_mode
       f_index] in *.
  destruct rn as [[[s from] to]|], md as [[old new]|], nf as [nf|], dl as [dl|],
    ix as [[[ia ib] [im|]]|];
    cbn [option_all] in *;
    repeat match goal with
           | H : _ /\ _ |- _ => destruct H
           end;
    unfold opt_lines, rename_lines, mode_lines, new_file_line_of,
      deleted_file_line_of, index_line_of, nl;
    cbn [append];
    repeat first
      [ rewrite occurrences_char by reflexivity
      | rewrite occurrences_line_feed by reflexivity
      | match goal with
        | H : token ?p ?w |- context [occurrences separator (?w +:+ ?t)] =>
            rewrite (occurrences_token p w t eq_refl H)
        end
      | rewrite append_assoc3
      | progress cbn [append] ];
    rewrite (occurrences_marker_lines body LF); reflexivity.
Qed.

(** A text that is one marker and a segment without a separator has that
    one segment. *)
Lemma segments_single (seg : string) :
  occurrences separator seg = 0 -> segments (marker +:+ seg) = [seg].
Proof.
  intros H. unfold segments, split.
  change (nl +:+ marker +:+ seg) with (separator +:+ seg).
  rewrite split_from_separator. simpl tail.
  pose proof (split_from_length _ seg "" (le_n _)) as L.
  pose proof (join_split_from _ seg "" (le_n _)) as J.
  rewrite H in L.
  destruct (split_from separator seg 0 "") as [|x [|y l]]; try discriminate L.
  simpl in J. now subst x.
Qed.

(** X19: the diff of one file written from its fields, the body behind the
    header lines, parses to one record with these fields: hashes and modes
    as the lines give them, with the fallbacks of the two modes, the flags
    set by the new-file and deleted-file lines, and the body. *)
Theorem written_diff_parses :
  forall f body,
    fields_ok f -> body_ok body = true -> marker_lines body = 0 ->
    list_from_string (marker +:+ write_segment f body)
    = Return [fields_record f body].
Proof.
  intros f body Hf Hb Hm.
  unfold list_from_string. rewrite segments_single.
  - simpl. now rewrite loop_body_written.
  - now rewrite occurrences_write_segment.
Qed.

(** X20: the header of a written segment: the match sets the groups of the
    lines that are there and no others, and ends where the body begins. *)
Theorem written_header_match :
  forall f body,
    fields_ok f -> body_ok body = true ->
    exists header,
      diff_header (write_segment f body) = Some header
      /\ groups diff_header_re header
         = [Some (f_a_path f); Some (f_b_path f);
            (fun '(s, _, _) => s) <$> f_rename f;
            (fun '(_, from, _) => from) <$> f_rename f;
            (fun '(_, _, to) => to) <$> f_rename f;
            fst <$> f_modes f; snd <$> f_modes f;
            f_new_file_mode f; f_deleted_file_mode f;
            (fun '(a, _, _) => a) <$> f_index f;
            (fun '(_, b, _) => b) <$> f_index f;
            f_index f ≫= (fun '(_, _, m) => m)]
      /\ drop_str (end_ header) (write_segment f body) = body.
Proof.
  intros f body Hf Hb.
  destruct (diff_header_written f body Hf Hb) as (h & Hh & Hc & _ & He).
  exists h. split; [assumption|]. split.
  - unfold groups, group. rewrite Hc. apply fields_caps_groups.
  - rewrite He, (write_segment_body f body). apply drop_str_append.
Qed.

Lemma written_diff_parses_witness :
  list_from_string (marker +:+ write_segment written_example example_hunk)
  = Return [mkDiff (Some "x") (Some "y") (Some "e69de29") (Some "0000000")
              (Some "100644") (Some "100600") false true example_hunk].
Proof.
  apply (written_diff_parses written_example example_hunk).
  - repeat split; first [discriminate | reflexivity].
  - reflexivity.
  - vm_compute. reflexivity.
Defined.

Lemma written_header_match_witness :
  exists header,
    diff_header (write_segment written_rename "@@") = Some header
    /\ groups diff_header_re header
       = [Some "old.py"; Some "new.py"; Some "90"; Some "old.py"; Some "new.py";
          Some "100644"; Some "100755"; None; None; None; None; None]
    /\ drop_str (end_ header) (write_segment written_rename "@@") = "@@".
Proof.
  apply (written_header_match written_rename "@@").
  - repeat split; first [discriminate | reflexivity].
  - reflexivity.
Defined.
